(** * Konsole terminal core: glyph intern table, emulation base class and
      history search.

    Shallow embedding of
      - [src/qmltermwidget/lib/Emulation.cpp]  ([ExtendedCharTable], [Emulation])
      - [src/qmltermwidget/lib/HistorySearch.cpp]  ([HistorySearch])

    Conventions.  C++ [int] values are [Z]; [ushort] values are [Z] reduced
    modulo 2^16 at every assignment; [QHash<ushort, ushort*>] is a [gmap Z
    (list Z)] whose values are the heap buffers; emitted Qt signals are
    appended to a log carried by the object that emits them. *)

From Stdlib Require Import ZArith Lia String Ascii.
From stdpp Require Import gmap list strings fin_maps sorting.

Local Open Scope Z_scope.

(* ===================================================================== *)
(** ** ExtendedCharTable *)
(* ===================================================================== *)

Module ExtendedCharTable.

(** Conversion of an [int] expression to [ushort]. *)
Definition ushort (z : Z) : Z := z mod 65536.

(** The table: [QHash<ushort, ushort*> extendedCharTable].  A stored buffer
    is the list [length :: unicodePoints]. *)
Abbreviation table := (gmap Z (list Z)).

(** A caller passes a pointer and a [ushort length]; the embedding passes
    the list of code points and takes its length.  [valid_seq] says that the
    list is a non-empty array of [ushort] whose length fits a [ushort]. *)
Definition seq_length (unicodePoints : list Z) : Z :=
  Z.of_nat (length unicodePoints).

Definition valid_seq (unicodePoints : list Z) : Prop :=
  0 < seq_length unicodePoints < 65536 ∧
  Forall (λ c, 0 ≤ c < 65536) unicodePoints.

(** [for (i = 0; i < length; i++) hash = 31 * hash + unicodePoints[i];] *)
Fixpoint extendedCharHash_from (hash : Z) (unicodePoints : list Z) : Z :=
  match unicodePoints with
  | [] => hash
  | c :: rest => extendedCharHash_from (ushort (31 * hash + c)) rest
  end.

Definition extendedCharHash (unicodePoints : list Z) : Z :=
  extendedCharHash_from 0 unicodePoints.

(** [extendedCharTable.contains(hash)] *)
Definition contains (t : table) (hash : Z) : bool :=
  match t !! hash with Some _ => true | None => false end.

(** [for (i = 0; i < length; i++) if (entry[i+1] != unicodePoints[i]) return false;]
    with [entry] already advanced past its length cell. *)
Fixpoint points_match (entry unicodePoints : list Z) : bool :=
  match unicodePoints with
  | [] => true
  | p :: ps =>
      match entry with
      | e :: es => if Z.eqb e p then points_match es ps else false
      | [] => false
      end
  end.

Definition extendedCharMatch (t : table) (hash : Z) (unicodePoints : list Z)
  : bool :=
  match t !! hash with
  | None => false                                   (* entry == nullptr *)
  | Some entry =>
      if negb (Z.eqb (hd 0 entry) (seq_length unicodePoints)) then false
      else points_match (tl entry) unicodePoints
  end.

(** The buffer that [createExtendedChar] allocates:
    [buffer[0] = length; buffer[i+1] = unicodePoints[i]]. *)
Definition buffer_of (unicodePoints : list Z) : list Z :=
  seq_length unicodePoints :: unicodePoints.

(** Outcome of the [while (extendedCharTable.contains(hash))] loop: either
    the [return hash] inside the loop, or the loop exit at a free slot. *)
Inductive probe_result : Type :=
| Existing (hash : Z)
| Vacant (hash : Z).

Definition handle_of (r : probe_result) : Z :=
  match r with Existing h => h | Vacant h => h end.

(** The probing loop.  [fuel] bounds the number of iterations; [None] means
    the bound was reached with the loop still running. *)
Fixpoint probe (fuel : nat) (t : table) (hash : Z) (unicodePoints : list Z)
  : option probe_result :=
  match fuel with
  | O => None
  | S fuel' =>
      if contains t hash then
        if extendedCharMatch t hash unicodePoints then Some (Existing hash)
        else probe fuel' t (ushort (hash + 1)) unicodePoints
      else Some (Vacant hash)
  end.

(** [createExtendedChar]: returns the handle and the table afterwards. *)
Definition createExtendedChar (fuel : nat) (t : table) (unicodePoints : list Z)
  : option (Z * table) :=
  match probe fuel t (extendedCharHash unicodePoints) unicodePoints with
  | None => None
  | Some (Existing hash) => Some (hash, t)
  | Some (Vacant hash) =>
      let buffer := buffer_of unicodePoints in
      Some (hash, <[hash := buffer]> t)
  end.

(** [lookupExtendedChar]: the returned pointer ([None] for [nullptr]) and
    the value written to the [length] out-parameter. *)
Definition lookupExtendedChar (t : table) (hash : Z) : option (list Z) * Z :=
  match t !! hash with
  | Some buffer => (Some (tl buffer), hd 0 buffer)
  | None => (None, 0)
  end.

(** The code points a caller reads through the returned pointer. *)
Definition resolved (t : table) (hash : Z) : list Z :=
  match lookupExtendedChar t hash with
  | (Some p, len) => take (Z.to_nat len) p
  | (None, _) => []
  end.

(** Number of distinct [ushort] values; one pass over all of them. *)
Definition slots : nat := Z.to_nat 65536.

(** Tables that the program can build: the global instance starts empty and
    is only changed by [createExtendedChar]. *)
Inductive reachable : table → Prop :=
| reachable_empty : reachable ∅
| reachable_create t fuel unicodePoints hash t' :
    reachable t →
    valid_seq unicodePoints →
    createExtendedChar fuel t unicodePoints = Some (hash, t') →
    reachable t'.

(** Invariant of reachable tables. *)
Definition table_wf (t : table) : Prop :=
  ∀ h entry, t !! h = Some entry →
    0 ≤ h < 65536 ∧
    ∃ pts, entry = seq_length pts :: pts ∧ valid_seq pts.

(** What the probing loop establishes about its result. *)
Definition probe_post (t : table) (pts : list Z) (r : probe_result) : Prop :=
  match r with
  | Existing h => t !! h = Some (buffer_of pts)
  | Vacant h => t !! h = None
  end.

(** Every stored sequence is the one that probing from its hash finds. *)
Definition probe_finds (t : table) : Prop :=
  ∀ h pts, t !! h = Some (buffer_of pts) →
    ∃ fuel, probe fuel t (extendedCharHash pts) pts = Some (Existing h).

(** The table after interning the one-element sequences [[0]], [[1]], ...,
    [[n-1]] in this order. *)
Fixpoint singles (n : nat) : table :=
  match n with
  | O => ∅
  | S k => <[Z.of_nat k := [1; Z.of_nat k]]> (singles k)
  end.

Definition full_table : table := singles slots.

(** The value of the hash polynomial over the integers, without the
    conversions to [ushort]: [31^(n-1) * p0 + ... + 31 * p(n-2) + p(n-1)]
    added to [31^n * hash]. *)
Fixpoint polynomial31_from (hash : Z) (unicodePoints : list Z) : Z :=
  match unicodePoints with
  | [] => hash
  | c :: rest => polynomial31_from (31 * hash + c) rest
  end.

Definition polynomial31 (unicodePoints : list Z) : Z :=
  polynomial31_from 0 unicodePoints.

End ExtendedCharTable.

(* ===================================================================== *)
(** ** Emulation *)
(* ===================================================================== *)

Module Emulation.

(** Values of the activity-state enum in [Emulation.h]. *)
Definition NOTIFYNORMAL : Z := 0.
Definition NOTIFYBELL : Z := 1.
Definition NOTIFYACTIVITY : Z := 2.

Definition BULK_TIMEOUT1 : Z := 10.
Definition BULK_TIMEOUT2 : Z := 40.

(** Signals of [Emulation] that the embedded methods emit. *)
Inductive Signal : Type :=
| stateSet (state : Z)
| zmodemDetected
| outputChanged
| imageSizeChanged (lineCount columnCount : Z).

#[global] Instance Signal_eq_dec : EqDecision Signal.
Proof. solve_decision. Defined.

(** Calls that [Emulation] makes on a [Screen] and that change what the
    screen shows. *)
Inductive ScreenCall : Type :=
| backspace
| tab
| newLine
| toStartOfLine
| displayCharacter (c : Z)
| resizeImage (new_lines new_columns : Z).

(** Modelled from the spec: the Screen Buffer ([Screen.cpp] is not part of
    the sources).  A screen has a size, the scrolled-line and dropped-line
    counters that a flush clears, and its contents, kept here as the
    sequence of content-changing calls received so far. *)
Record Screen : Type := mkScreen {
  getLines : Z;
  getColumns : Z;
  scrolledLines : Z;
  droppedLines : Z;
  contents : list ScreenCall
}.

Definition Screen_new (lines columns : Z) : Screen :=
  mkScreen lines columns 0 0 [].

(** A content-changing call is recorded in [contents].  Whether such a call
    scrolls or drops lines is decided in [Screen.cpp]: the two counters are
    followed here through the resets of a flush only, and nothing is stated
    about their values after a content-changing call. *)
Definition Screen_call (op : ScreenCall) (s : Screen) : Screen :=
  mkScreen (getLines s) (getColumns s) (scrolledLines s) (droppedLines s)
           (contents s ++ [op]).

Definition Screen_resizeImage (new_lines new_columns : Z) (s : Screen) : Screen :=
  mkScreen new_lines new_columns (scrolledLines s) (droppedLines s)
           (contents s ++ [resizeImage new_lines new_columns]).

Definition Screen_resetScrolledLines (s : Screen) : Screen :=
  mkScreen (getLines s) (getColumns s) 0 (droppedLines s) (contents s).

Definition Screen_resetDroppedLines (s : Screen) : Screen :=
  mkScreen (getLines s) (getColumns s) (scrolledLines s) 0 (contents s).

(** A [Screen*] that points at one of the two screens of the emulation. *)
Inductive ScreenPtr : Type := Primary | Alternate.

#[global] Instance ScreenPtr_eq_dec : EqDecision ScreenPtr.
Proof. solve_decision. Defined.

(** [_screen[i]] as an lvalue: the array has exactly two cells. *)
Definition screen_cell (i : Z) : option ScreenPtr :=
  if Z.eqb i 0 then Some Primary
  else if Z.eqb i 1 then Some Alternate
  else None.

(** Modelled from the spec: the View Observer ([ScreenWindow.cpp] is not
    part of the sources).  It holds the screen it is bound to; the calls of
    its [setScreen] are recorded in [rebinds]. *)
Record ScreenWindow : Type := mkWindow {
  window_screen : ScreenPtr;
  rebinds : list ScreenPtr
}.

Definition ScreenWindow_setScreen (p : ScreenPtr) (w : ScreenWindow)
  : ScreenWindow :=
  mkWindow p (rebinds w ++ [p]).

(** [QTimer], as far as the emulation uses it: [start] (re)arms the timer
    [msec] milliseconds after the current time, [stop] disarms it. *)
Record QTimer : Type := mkTimer {
  isActive : bool;
  isSingleShot : bool;
  deadline : Z
}.

Definition QTimer_new : QTimer := mkTimer false false 0.

Definition QTimer_setSingleShot (b : bool) (t : QTimer) : QTimer :=
  mkTimer (isActive t) b (deadline t).

Definition QTimer_start (now msec : Z) (t : QTimer) : QTimer :=
  mkTimer true (isSingleShot t) (now + msec).

Definition QTimer_stop (t : QTimer) : QTimer :=
  mkTimer false (isSingleShot t) (deadline t).

(** [QStringDecoder]: a stateful decoder from bytes to code points. *)
Record QStringDecoder : Type := mkDecoder {
  decoder_state : Type;
  decoder_current : decoder_state;
  decoder_step : decoder_state → list Z → list Z * decoder_state
}.

Definition QStringDecoder_decode (d : QStringDecoder) (bytes : list Z)
  : list Z * QStringDecoder :=
  let (text, st) := decoder_step d (decoder_current d) bytes in
  (text, mkDecoder (decoder_state d) st (decoder_step d)).

(** The emulation object.  [clock] is the time of the event loop in
    milliseconds and [emitted] the signals emitted so far, oldest first. *)
Record Emulation : Type := mkEmulation {
  _windows : list ScreenWindow;
  _currentScreen : ScreenPtr;
  _screen0 : Screen;
  _screen1 : Screen;
  _decoder : option QStringDecoder;
  _bulkTimer1 : QTimer;
  _bulkTimer2 : QTimer;
  clock : Z;
  emitted : list Signal
}.

Definition screen_at (e : Emulation) (p : ScreenPtr) : Screen :=
  match p with Primary => _screen0 e | Alternate => _screen1 e end.

Definition set_windows ws (e : Emulation) : Emulation :=
  mkEmulation ws (_currentScreen e) (_screen0 e) (_screen1 e) (_decoder e)
              (_bulkTimer1 e) (_bulkTimer2 e) (clock e) (emitted e).

Definition set_currentScreen p (e : Emulation) : Emulation :=
  mkEmulation (_windows e) p (_screen0 e) (_screen1 e) (_decoder e)
              (_bulkTimer1 e) (_bulkTimer2 e) (clock e) (emitted e).

Definition update_screen (p : ScreenPtr) (f : Screen → Screen) (e : Emulation)
  : Emulation :=
  match p with
  | Primary =>
      mkEmulation (_windows e) (_currentScreen e) (f (_screen0 e)) (_screen1 e)
                  (_decoder e) (_bulkTimer1 e) (_bulkTimer2 e) (clock e)
                  (emitted e)
  | Alternate =>
      mkEmulation (_windows e) (_currentScreen e) (_screen0 e) (f (_screen1 e))
                  (_decoder e) (_bulkTimer1 e) (_bulkTimer2 e) (clock e)
                  (emitted e)
  end.

Definition set_decoder d (e : Emulation) : Emulation :=
  mkEmulation (_windows e) (_currentScreen e) (_screen0 e) (_screen1 e) d
              (_bulkTimer1 e) (_bulkTimer2 e) (clock e) (emitted e).

Definition update_bulkTimer1 (f : QTimer → QTimer) (e : Emulation) : Emulation :=
  mkEmulation (_windows e) (_currentScreen e) (_screen0 e) (_screen1 e)
              (_decoder e) (f (_bulkTimer1 e)) (_bulkTimer2 e) (clock e)
              (emitted e).

Definition update_bulkTimer2 (f : QTimer → QTimer) (e : Emulation) : Emulation :=
  mkEmulation (_windows e) (_currentScreen e) (_screen0 e) (_screen1 e)
              (_decoder e) (_bulkTimer1 e) (f (_bulkTimer2 e)) (clock e)
              (emitted e).

Definition set_clock (now : Z) (e : Emulation) : Emulation :=
  mkEmulation (_windows e) (_currentScreen e) (_screen0 e) (_screen1 e)
              (_decoder e) (_bulkTimer1 e) (_bulkTimer2 e) now (emitted e).

Definition emit (s : Signal) (e : Emulation) : Emulation :=
  mkEmulation (_windows e) (_currentScreen e) (_screen0 e) (_screen1 e)
              (_decoder e) (_bulkTimer1 e) (_bulkTimer2 e) (clock e)
              (emitted e ++ [s]).

(** The constructor: two 40 x 80 screens, the first one current, a decoder
    [utf8] for UTF-8, no windows, both timers idle. *)
Definition Emulation_new (utf8 : QStringDecoder) : Emulation :=
  mkEmulation [] Primary (Screen_new 40 80) (Screen_new 40 80) (Some utf8)
              QTimer_new QTimer_new 0 [].

(** [createWindow()]: the new window gets its first [setScreen] call here. *)
Definition createWindow (e : Emulation) : ScreenWindow * Emulation :=
  let window := mkWindow (_currentScreen e) [_currentScreen e] in
  (window, set_windows (_windows e ++ [window]) e).

(** [setScreen(int n)] *)
Definition setScreen (n : Z) (e : Emulation) : Emulation :=
  let old := _currentScreen e in
  match screen_cell (Z.land n 1) with
  | None => e                     (* no such cell; see [screen_cell_land] *)
  | Some p =>
      let e := set_currentScreen p e in
      if decide (_currentScreen e ≠ old) then
        set_windows (map (ScreenWindow_setScreen (_currentScreen e)) (_windows e)) e
      else e
  end.

(** [receiveChar(wchar_t c)] *)
Definition receiveChar (c : Z) (e : Emulation) : Emulation :=
  let c := Z.land c 255 in
  if Z.eqb c 8 then update_screen (_currentScreen e) (Screen_call backspace) e
  else if Z.eqb c 9 then update_screen (_currentScreen e) (Screen_call tab) e
  else if Z.eqb c 10 then update_screen (_currentScreen e) (Screen_call newLine) e
  else if Z.eqb c 13 then
    update_screen (_currentScreen e) (Screen_call toStartOfLine) e
  else if Z.eqb c 7 then emit (stateSet NOTIFYBELL) e
  else update_screen (_currentScreen e) (Screen_call (displayCharacter c)) e.

(** [showBulk()] *)
Definition showBulk (e : Emulation) : Emulation :=
  let e := update_bulkTimer1 QTimer_stop e in
  let e := update_bulkTimer2 QTimer_stop e in
  let e := emit outputChanged e in
  let e := update_screen (_currentScreen e) Screen_resetScrolledLines e in
  update_screen (_currentScreen e) Screen_resetDroppedLines e.

(** [bufferedUpdate()] *)
Definition bufferedUpdate (e : Emulation) : Emulation :=
  let e := update_bulkTimer1 (QTimer_setSingleShot true) e in
  let e := update_bulkTimer1 (QTimer_start (clock e) BULK_TIMEOUT1) e in
  if negb (isActive (_bulkTimer2 e)) then
    let e := update_bulkTimer2 (QTimer_setSingleShot true) e in
    update_bulkTimer2 (QTimer_start (clock e) BULK_TIMEOUT2) e
  else e.

(** *** The history of the primary screen *)

Section History.

(** [HistoryType] and the calls [Screen::getScroll()] and
    [Screen::setScroll(const HistoryType&, bool copyPreviousScroll)] are
    declared in [History.h] and [Screen.h], which are not part of the
    sources: the type, the two calls and the default value of the second
    argument of [setScroll] are parameters. *)
Variable HistoryType : Type.
Variable Screen_getScroll : Screen → HistoryType.
Variable Screen_setScroll : HistoryType → bool → Screen → Screen.
Variable copyPreviousScroll : bool.

(** [clearHistory()] *)
Definition clearHistory (e : Emulation) : Emulation :=
  update_screen Primary
    (λ s, Screen_setScroll (Screen_getScroll s) false s) e.

(** [setHistory(const HistoryType& t)] *)
Definition setHistory (t : HistoryType) (e : Emulation) : Emulation :=
  let e := update_screen Primary (Screen_setScroll t copyPreviousScroll) e in
  showBulk e.

End History.

(** The event loop delivering [timeout()] of the bulk timers, both connected
    to [showBulk] by the constructor.  [next_timeout] is the earliest pending
    deadline; [elapse] moves the clock there and runs the slot. *)
Definition next_timeout (e : Emulation) : option Z :=
  match isActive (_bulkTimer1 e), isActive (_bulkTimer2 e) with
  | true, true => Some (Z.min (deadline (_bulkTimer1 e)) (deadline (_bulkTimer2 e)))
  | true, false => Some (deadline (_bulkTimer1 e))
  | false, true => Some (deadline (_bulkTimer2 e))
  | false, false => None
  end.

Definition elapse (e : Emulation) : option Emulation :=
  match next_timeout e with
  | None => None
  | Some d => Some (showBulk (set_clock (Z.max (clock e) d) e))
  end.

(** [strncmp(s1, s2, n)] on arrays given as lists; the end of a list reads
    as the terminating NUL. *)
Fixpoint strncmp (s1 s2 : list Z) (n : nat) : Z :=
  match n with
  | O => 0
  | S n' =>
      let c1 := hd 0 s1 in
      let c2 := hd 0 s2 in
      if Z.eqb c1 c2 then
        if Z.eqb c1 0 then 0 else strncmp (tl s1) (tl s2) n'
      else c1 - c2
  end.

(** The bytes of the string literal ["B00"]. *)
Definition B00 : list Z := [66; 48; 48].

(** Body of the z-modem loop for one index [i]. *)
Definition zmodem_step (text : list Z) (e : Emulation) (i : nat) : Emulation :=
  let length := Z.of_nat (length text) in
  if Z.eqb (nth i text 0) 24 then
    if Z.gtb (length - Z.of_nat i - 1) 3
       && Z.eqb (strncmp (drop (i + 1) text) B00 3) 0
    then emit zmodemDetected e
    else e
  else e.

(** [receiveData(const char* text, int length)], with [length] the length of
    the list [text]. *)
Definition receiveData (text : list Z) (e : Emulation) : Emulation :=
  let e := emit (stateSet NOTIFYACTIVITY) e in
  let e := bufferedUpdate e in
  match _decoder e with
  | None => e
  | Some d =>
      let (unicodeString, d') := QStringDecoder_decode d text in
      let e := set_decoder (Some d') e in
      let e := fold_left (λ e c, receiveChar c e) unicodeString e in
      fold_left (zmodem_step text) (seq 0 (length text)) e
  end.

(** [setImageSize(int lines, int columns)] *)
Definition setImageSize (lines columns : Z) (e : Emulation) : Emulation :=
  if Z.ltb lines 1 || Z.ltb columns 1 then e
  else
    let screenSize0 := (getColumns (_screen0 e), getLines (_screen0 e)) in
    let screenSize1 := (getColumns (_screen1 e), getLines (_screen1 e)) in
    let newSize := (columns, lines) in
    if bool_decide (newSize = screenSize0) && bool_decide (newSize = screenSize1)
    then e
    else
      let e := update_screen Primary (Screen_resizeImage lines columns) e in
      let e := update_screen Alternate (Screen_resizeImage lines columns) e in
      let e := emit (imageSizeChanged lines columns) e in
      bufferedUpdate e.

(** The effect of one call on the current screen and nothing else. *)
Definition calls_screen (op : ScreenCall) (e e' : Emulation) : Prop :=
  contents (screen_at e' (_currentScreen e))
  = contents (screen_at e (_currentScreen e)) ++ [op] ∧
  _currentScreen e' = _currentScreen e ∧
  emitted e' = emitted e.

(** Number of occurrences of a signal in the log. *)
Definition count_signal (s : Signal) (log : list Signal) : nat :=
  length (filter (λ x, x = s) log).

(** Index [i] of the chunk holds 0x18, more than three bytes follow it, and
    the first three of them are ["B00"]. *)
Definition marker_at (text : list Z) (i : nat) : bool :=
  Z.eqb (nth i text 0) 24
  && Z.gtb (Z.of_nat (length text) - Z.of_nat i - 1) 3
  && bool_decide (take 3 (drop (i + 1) text) = B00).

Definition count_markers (text : list Z) : nat :=
  length (filter (λ i, marker_at text i = true) (seq 0 (length text))).

(** A decoder for a single-byte encoding: every byte is one code point. *)
Definition latin1 : QStringDecoder :=
  mkDecoder unit tt (λ st bytes, (bytes, st)).

(** [imageSize()]: [QSize(columns, lines)] of the current screen. *)
Definition imageSize (e : Emulation) : Z * Z :=
  (getColumns (screen_at e (_currentScreen e)),
   getLines (screen_at e (_currentScreen e))).

(** The call that [receiveChar] makes on the current screen for a code
    point, if it makes one, and the signal it emits, if it emits one. *)
Definition dispatched_call (c : Z) : option ScreenCall :=
  let b := Z.land c 255 in
  if Z.eqb b 8 then Some backspace
  else if Z.eqb b 9 then Some tab
  else if Z.eqb b 10 then Some newLine
  else if Z.eqb b 13 then Some toStartOfLine
  else if Z.eqb b 7 then None
  else Some (displayCharacter b).

Definition dispatched_signal (c : Z) : option Signal :=
  if Z.eqb (Z.land c 255) 7 then Some (stateSet NOTIFYBELL) else None.

(** The code points that the decoder of [e] produces for a chunk. *)
Definition decoded (e : Emulation) (text : list Z) : list Z :=
  match _decoder e with
  | Some d => fst (QStringDecoder_decode d text)
  | None => []
  end.

(** The methods as calls on an emulation object, and the passing of time
    between calls: [call_timeout] lets the event loop deliver the pending
    timeout, if there is one; [call_advance] lets [msec] milliseconds pass
    without returning to the event loop. *)
Inductive Call : Type :=
| call_createWindow
| call_setScreen (n : Z)
| call_receiveChar (c : Z)
| call_receiveData (text : list Z)
| call_setImageSize (lines columns : Z)
| call_bufferedUpdate
| call_showBulk
| call_timeout
| call_advance (msec : Z).

#[global] Instance Call_eq_dec : EqDecision Call.
Proof. solve_decision. Defined.

Definition perform (c : Call) (e : Emulation) : Emulation :=
  match c with
  | call_createWindow => snd (createWindow e)
  | call_setScreen n => setScreen n e
  | call_receiveChar c => receiveChar c e
  | call_receiveData text => receiveData text e
  | call_setImageSize lines columns => setImageSize lines columns e
  | call_bufferedUpdate => bufferedUpdate e
  | call_showBulk => showBulk e
  | call_timeout => match elapse e with Some e' => e' | None => e end
  | call_advance msec => set_clock (clock e + Z.max 0 msec) e
  end.

Definition run (calls : list Call) (e : Emulation) : Emulation :=
  fold_left (λ e c, perform c e) calls e.

(** Three properties of the states that calls lead to.  Every window
    looks at the current screen; the two screens have the same size, of at
    least one line and one column; the two bulk timers are armed together,
    the short one at most 10 ms and the long one at most 40 ms ahead, and
    the long one not more than 30 ms after the short one. *)
Definition windows_bound (e : Emulation) : Prop :=
  Forall (λ w, window_screen w = _currentScreen e) (_windows e).

Definition sizes_agree (e : Emulation) : Prop :=
  getLines (_screen0 e) = getLines (_screen1 e) ∧
  getColumns (_screen0 e) = getColumns (_screen1 e) ∧
  1 ≤ getLines (_screen0 e) ∧ 1 ≤ getColumns (_screen0 e).

Definition timers_paired (e : Emulation) : Prop :=
  isActive (_bulkTimer1 e) = isActive (_bulkTimer2 e) ∧
  (isActive (_bulkTimer1 e) = true →
   deadline (_bulkTimer1 e) ≤ clock e + BULK_TIMEOUT1 ∧
   deadline (_bulkTimer2 e) ≤ clock e + BULK_TIMEOUT2 ∧
   deadline (_bulkTimer2 e) ≤ deadline (_bulkTimer1 e) + 30).

(** What a dispatch leaves alone: all but the signal log and, of the current
    screen, all but its contents and its two counters. *)
Definition dispatch_frame (e e' : Emulation) : Prop :=
  _windows e' = _windows e ∧
  _currentScreen e' = _currentScreen e ∧
  _decoder e' = _decoder e ∧
  _bulkTimer1 e' = _bulkTimer1 e ∧
  _bulkTimer2 e' = _bulkTimer2 e ∧
  clock e' = clock e ∧
  (∀ p, p ≠ _currentScreen e → screen_at e' p = screen_at e p) ∧
  getLines (screen_at e' (_currentScreen e))
  = getLines (screen_at e (_currentScreen e)) ∧
  getColumns (screen_at e' (_currentScreen e))
  = getColumns (screen_at e (_currentScreen e)).

(** What [bufferedUpdate] after the activity signal leaves alone. *)
Definition activity_frame (e e1 : Emulation) : Prop :=
  _windows e1 = _windows e ∧
  _currentScreen e1 = _currentScreen e ∧
  _decoder e1 = _decoder e ∧
  clock e1 = clock e ∧
  screen_at e1 = screen_at e ∧
  emitted e1 = emitted e ++ [stateSet NOTIFYACTIVITY].

(** Emitting a list of signals, one after the other. *)
Definition emit_all (signals : list Signal) (e : Emulation) : Emulation :=
  fold_left (λ e s, emit s e) signals e.

(** [bufferedUpdate()] called at each of the given times. *)
Definition updates_at (times : list Z) (e : Emulation) : Emulation :=
  fold_left (λ e now, bufferedUpdate (set_clock now e)) times e.

End Emulation.

(* ===================================================================== *)
(** ** HistorySearch *)
(* ===================================================================== *)

Module HistorySearch.

(** [QString::size()] *)
Definition size (s : string) : Z := Z.of_nat (String.length s).

(** The range of a 32-bit [int], and the conversion of the value of an
    arithmetic expression to [int]: the value modulo 2^32 in that range.
    Sums and differences of [int]s are converted where the code assigns
    them, which gives the result of two's complement arithmetic. *)
Definition INT_MIN : Z := -2147483648.
Definition INT_MAX : Z := 2147483647.

Definition int_range (z : Z) : Prop := INT_MIN ≤ z ≤ INT_MAX.

Definition int (z : Z) : Z := (z + 2147483648) mod 4294967296 - 2147483648.

(** A [QRegularExpressionMatch] for which [hasMatch()] holds; a match object
    without a match is [None].  The fields are the values of
    [capturedStart()] and [capturedLength()] as the code reads them into an
    [int]. *)
Record QRegularExpressionMatch : Type := mkMatch {
  capturedStart : Z;
  capturedLength : Z
}.

(** [QRegularExpression], as an interface: its pattern string, [match(subject,
    offset)] and the sequence that the iterator of [globalMatch(subject)]
    yields. *)
Record QRegularExpression : Type := mkRegExp {
  pattern : string;
  match_from : string → Z → option QRegularExpressionMatch;
  globalMatch : string → list QRegularExpressionMatch
}.

(** What the search uses of the emulation: [lineCount()] and
    [writeToStream(&decoder, startLine, endLine)] with a fresh
    [PlainTextDecoder] that records line positions; the result is the text
    written to the stream and [decoder.linePositions()]. *)
Record EmulationPtr : Type := mkEmulationPtr {
  lineCount : Z;
  writeToStream : Z → Z → string * list Z
}.

Record HistorySearch : Type := mkHistorySearch {
  m_emulation : EmulationPtr;
  m_regExp : QRegularExpression;
  m_forwards : bool;
  m_startColumn : Z;
  m_startLine : Z
}.

(** The four [m_found...] members once a scan has set them. *)
Record Found : Type := mkFound {
  m_foundStartColumn : Z;
  m_foundStartLine : Z;
  m_foundEndColumn : Z;
  m_foundEndLine : Z
}.

Inductive Signal : Type :=
| matchFound (startColumn startLine endColumn endLine : Z)
| noMatchFound.

(** [QList<int>::at(i)]; every call below has [0 <= i < size()] whenever
    the list is not empty.  The indices are counted up from 0 and stay below
    the length of the list, so that they need no conversion. *)
Definition at_ (l : list Z) (i : Z) : Z := nth (Z.to_nat i) l 0.

(** [findLineNumberInString]: [rest] is the part of [linePositions] after
    index [lineNum]. *)
Fixpoint findLineNumber_from (rest : list Z) (position lineNum : Z) : Z :=
  match rest with
  | [] => lineNum
  | next :: rest' =>
      if Z.leb next position then findLineNumber_from rest' position (lineNum + 1)
      else lineNum
  end.

Definition findLineNumberInString (linePositions : list Z) (position : Z) : Z :=
  findLineNumber_from (tl linePositions) position 0.

(** The [while (iterator.hasNext())] loop of the backward branch. *)
Fixpoint backwardScan (matches : list QRegularExpressionMatch)
    (startColumn endPosition : Z) (lastMatch : option QRegularExpressionMatch)
  : option QRegularExpressionMatch :=
  match matches with
  | [] => lastMatch
  | currentMatch :: rest =>
      let currentStart := capturedStart currentMatch in
      if Z.ltb currentStart endPosition
         && (Z.eqb startColumn (-1) || Z.geb currentStart startColumn)
      then backwardScan rest startColumn endPosition (Some currentMatch)
      else lastMatch                                         (* break *)
  end.

(** Matching inside one block: the values of [match] and [matchStart] when
    the [if (m_forwards) ... else ...] statement is left. *)
Definition blockMatch (forwards : bool) (regExp : QRegularExpression)
    (text : string) (startColumn endPosition : Z)
  : option QRegularExpressionMatch * Z :=
  if forwards then
    match match_from regExp text startColumn with
    | Some m =>
        let matchStart := capturedStart m in
        (Some m, if Z.geb matchStart endPosition then -1 else matchStart)
    | None => (None, -1)
    end
  else
    match backwardScan (globalMatch regExp text) startColumn endPosition None with
    | Some lastMatch => (Some lastMatch, capturedStart lastMatch)
    | None => (None, -1)
    end.

(** [capturedLength()] of a match object that may hold no match. *)
Definition capturedLength_of (m : option QRegularExpressionMatch) : Z :=
  match m with Some m => capturedLength m | None => 0 end.

(** End boundary of a block. *)
Definition endPosition_of (text : string) (linePositions : list Z)
    (endColumn : Z) : Z :=
  let numberOfLinesInString := int (Z.of_nat (length linePositions) - 1) in
  if Z.gtb numberOfLinesInString 0 && Z.gtb endColumn (-1)
  then int (at_ linePositions (int (numberOfLinesInString - 1)) + endColumn)
  else int (size text).

(** One pass through the body of the block loop of
    [search(int, int, int, int)]: [Some] when the body returns [true], with
    the values it stores in the [m_found...] members. *)
Definition scanBlock (hs : HistorySearch)
    (startColumn startLine endColumn endLine linesRead blockSize : Z)
  : option Found :=
  let blockStartLine :=
    if m_forwards hs then int (startLine + linesRead)
    else int (endLine - linesRead - blockSize + 1) in
  let chunkEndLine := int (blockStartLine + blockSize - 1) in
  let (text, linePositions) :=
    writeToStream (m_emulation hs) blockStartLine chunkEndLine in
  let endPosition := endPosition_of text linePositions endColumn in
  let (match_, matchStart) :=
    blockMatch (m_forwards hs) (m_regExp hs) text startColumn endPosition in
  if Z.gtb matchStart (-1) then
    let matchEnd := int (matchStart + capturedLength_of match_ - 1) in
    let startLineNumberInString :=
      findLineNumberInString linePositions matchStart in
    let endLineNumberInString :=
      findLineNumberInString linePositions matchEnd in
    Some (mkFound
            (int (matchStart - at_ linePositions startLineNumberInString))
            (int (startLineNumberInString + startLine + linesRead))
            (int (matchEnd - at_ linePositions endLineNumberInString))
            (int (endLineNumberInString + startLine + linesRead)))
  else None.

(** The block loop, [while ((blockSize = qMin(10000, linesToRead -
    linesRead)) > 0)].  The outer [option] is [None] only when [fuel]
    iterations did not finish the loop. *)
Fixpoint scanBlocks (fuel : nat) (hs : HistorySearch)
    (startColumn startLine endColumn endLine linesToRead linesRead : Z)
  : option (option Found) :=
  let blockSize := Z.min 10000 (int (linesToRead - linesRead)) in
  if Z.gtb blockSize 0 then
    match fuel with
    | O => None
    | S fuel' =>
        match scanBlock hs startColumn startLine endColumn endLine
                        linesRead blockSize with
        | Some found => Some (Some found)
        | None =>
            scanBlocks fuel' hs startColumn startLine endColumn endLine
                       linesToRead (int (linesRead + blockSize))
        end
    end
  else Some None.

(** [search(int startColumn, int startLine, int endColumn, int endLine)].
    Every iteration reads at least one line, so [linesToRead] iterations are
    enough. *)
Definition search_range (hs : HistorySearch)
    (startColumn startLine endColumn endLine : Z) : option (option Found) :=
  let linesToRead := int (endLine - startLine + 1) in
  scanBlocks (Z.to_nat linesToRead) hs startColumn startLine endColumn endLine
             linesToRead 0.

(** [a || b] on two scans: the second runs only if the first found nothing. *)
Definition or_else (a : option (option Found)) (b : option (option Found))
  : option (option Found) :=
  match a with
  | None => None
  | Some (Some f) => Some (Some f)
  | Some None => b
  end.

(** What a run of [search()] leaves behind: the signals emitted, in order,
    and whether [deleteLater()] was called. *)
Record Outcome : Type := mkOutcome {
  emitted : list Signal;
  deleteLater : bool
}.

(** [search()] *)
Definition search (hs : HistorySearch) : option Outcome :=
  if negb (String.eqb (pattern (m_regExp hs)) EmptyString) then
    let found :=
      if m_forwards hs then
        or_else (search_range hs (m_startColumn hs) (m_startLine hs) (-1)
                              (lineCount (m_emulation hs)))
                (search_range hs 0 0 (m_startColumn hs) (m_startLine hs))
      else
        or_else (search_range hs 0 0 (m_startColumn hs) (m_startLine hs))
                (search_range hs (m_startColumn hs) (m_startLine hs) (-1)
                              (lineCount (m_emulation hs)))
    in
    match found with
    | None => None
    | Some (Some f) =>
        Some (mkOutcome
                [matchFound (m_foundStartColumn f) (m_foundStartLine f)
                            (m_foundEndColumn f) (m_foundEndLine f)]
                true)
    | Some None => Some (mkOutcome [noMatchFound] true)
    end
  else Some (mkOutcome [] true).

(** The signal that reports a successful scan. *)
Definition matchFound_of (f : Found) : Signal :=
  matchFound (m_foundStartColumn f) (m_foundStartLine f)
             (m_foundEndColumn f) (m_foundEndLine f).

(** The test that keeps the backward loop going. *)
Definition qualifies (startColumn endPosition : Z)
    (m : QRegularExpressionMatch) : bool :=
  Z.ltb (capturedStart m) endPosition
  && (Z.eqb startColumn (-1) || Z.geb (capturedStart m) startColumn).

(** The matches the backward loop looks at before it breaks. *)
Fixpoint scanned (startColumn endPosition : Z)
    (matches : list QRegularExpressionMatch) : list QRegularExpressionMatch :=
  match matches with
  | [] => []
  | m :: rest =>
      if qualifies startColumn endPosition m
      then m :: scanned startColumn endPosition rest
      else []
  end.

(** The iterator yields matches in increasing order of their start. *)
Definition increasing (matches : list QRegularExpressionMatch) : Prop :=
  StronglySorted (λ a b, capturedStart a < capturedStart b) matches.

(** *** A literal pattern and a list of lines, for running the search *)

(** A regular expression without metacharacters matches its own text:
    [match] finds the first occurrence at or after the offset (a negative
    offset counts from the end, an offset outside the subject gives no
    match), the global iterator yields the successive non-overlapping
    occurrences. *)
Definition literal_match_from (p text : string) (offset : Z)
  : option QRegularExpressionMatch :=
  let offset := if Z.ltb offset 0 then offset + size text else offset in
  if Z.ltb offset 0 || Z.gtb offset (size text) then None
  else
    match String.index (Z.to_nat offset) p text with
    | Some i => Some (mkMatch (Z.of_nat i) (size p))
    | None => None
    end.

Fixpoint literal_matches (fuel : nat) (p text : string) (from : nat)
  : list QRegularExpressionMatch :=
  match fuel with
  | O => []
  | S fuel' =>
      match String.index from p text with
      | Some i =>
          mkMatch (Z.of_nat i) (size p)
          :: literal_matches fuel' p text (i + Nat.max 1 (String.length p))
      | None => []
      end
  end.

Definition literal (p : string) : QRegularExpression :=
  mkRegExp p (literal_match_from p)
           (λ text, literal_matches (S (String.length text)) p text 0).

Definition newline : string := String (ascii_of_nat 10) EmptyString.

(** Modelled from the spec: the stream export with the plain-text decoder
    ([Screen.cpp] and [TerminalCharacterDecoder.cpp] are not part of the
    sources), the capability that "yields decoded text plus the offset at
    which each source line begins".  The lines [y], [y+1], ... are written in
    order, each but the last followed by a newline; a line number outside
    the buffer gives an empty line. *)
Fixpoint writeLines (buffer : list string) (y : Z) (count : nat)
    (text : string) (linePositions : list Z) : string * list Z :=
  match count with
  | O => (text, linePositions)
  | S count' =>
      let line :=
        if Z.ltb y 0 then EmptyString
        else nth (Z.to_nat y) buffer EmptyString in
      let text' := (text ++ line ++ (if count' is O then EmptyString else newline))%string in
      writeLines buffer (y + 1) count' text' (linePositions ++ [size text])
  end.

Definition writeLinesToStream (buffer : list string) (startLine endLine : Z)
  : string * list Z :=
  writeLines buffer startLine (Z.to_nat (endLine - startLine + 1))
             EmptyString [].

Definition emulation_of (buffer : list string) : EmulationPtr :=
  mkEmulationPtr (Z.of_nat (length buffer)) (writeLinesToStream buffer).

(** The buffer of the worked examples. *)
Definition foo_bar_foobar : list string := ["foo"; "bar"; "foobar"]%string.


End HistorySearch.

(* ===================================================================== *)
(** ** Facts about the ExtendedCharTable *)
(* ===================================================================== *)

Module ExtendedCharTableProofs.
Import ExtendedCharTable.

Lemma ushort_range z : 0 ≤ ushort z < 65536.
Proof. unfold ushort. apply Z.mod_pos_bound. lia. Qed.

Lemma ushort_small z : 0 ≤ z < 65536 → ushort z = z.
Proof. intros. unfold ushort. by apply Z.mod_small. Qed.

Lemma extendedCharHash_from_range h pts :
  0 ≤ h < 65536 → 0 ≤ extendedCharHash_from h pts < 65536.
Proof.
  revert h. induction pts as [|c rest IH]; intros h Hh; simpl; [done|].
  apply IH, ushort_range.
Qed.

Lemma extendedCharHash_range pts : 0 ≤ extendedCharHash pts < 65536.
Proof. apply extendedCharHash_from_range. lia. Qed.

Lemma points_match_refl pts : points_match pts pts = true.
Proof. induction pts as [|p ps IH]; simpl; [done|]. by rewrite Z.eqb_refl. Qed.

Lemma points_match_eq entry pts :
  length entry = length pts → points_match entry pts = true → entry = pts.
Proof.
  revert entry. induction pts as [|p ps IH]; intros [|e es] Hlen Hm;
    simpl in *; try done.
  destruct (Z.eqb_spec e p) as [->|]; [|done].
  f_equal. apply IH; [lia|done].
Qed.

Lemma buffer_of_inj a b : buffer_of a = buffer_of b → a = b.
Proof. unfold buffer_of. congruence. Qed.

Lemma extendedCharMatch_stored t h pts :
  t !! h = Some (buffer_of pts) → extendedCharMatch t h pts = true.
Proof.
  intros Hl. unfold extendedCharMatch. rewrite Hl. simpl.
  rewrite Z.eqb_refl. simpl. apply points_match_refl.
Qed.

Lemma extendedCharMatch_true t h pts :
  table_wf t → extendedCharMatch t h pts = true → t !! h = Some (buffer_of pts).
Proof.
  intros Hwf. unfold extendedCharMatch.
  destruct (t !! h) as [entry|] eqn:Hl; [|done].
  destruct (Hwf _ _ Hl) as [_ (stored & -> & _)]. simpl.
  destruct (Z.eqb_spec (seq_length stored) (seq_length pts)) as [Hlen|];
    simpl; [|done].
  intros Hm. f_equal. unfold buffer_of. rewrite <- Hlen. f_equal.
  apply points_match_eq; [|done]. unfold seq_length in Hlen. lia.
Qed.

Lemma probe_sound fuel t h pts r :
  table_wf t → 0 ≤ h < 65536 →
  probe fuel t h pts = Some r →
  probe_post t pts r ∧ 0 ≤ handle_of r < 65536.
Proof.
  intros Hwf. revert h. induction fuel as [|fuel IH]; intros h Hh; simpl; [done|].
  unfold contains. destruct (t !! h) as [entry|] eqn:Hl.
  - destruct (extendedCharMatch t h pts) eqn:Hm.
    + intros [= <-]. simpl. split; [|done]. by apply extendedCharMatch_true.
    + apply IH, ushort_range.
  - intros [= <-]. simpl. done.
Qed.

Lemma probe_fuel_mono fuel fuel' t h pts r :
  (fuel ≤ fuel')%nat → probe fuel t h pts = Some r → probe fuel' t h pts = Some r.
Proof.
  revert fuel' h. induction fuel as [|fuel IH]; intros [|fuel'] h Hle; simpl;
    try done; [lia|].
  destruct (contains t h); [|done].
  destruct (extendedCharMatch t h pts); [done|]. apply IH. lia.
Qed.

(** Entries are never changed or removed, so a probe that ended at [h] ends
    at [h] again in every later table that holds the sequence there. *)
Lemma probe_stable fuel t t' h pts r :
  t ⊆ t' → t' !! handle_of r = Some (buffer_of pts) →
  probe fuel t h pts = Some r →
  probe fuel t' h pts = Some (Existing (handle_of r)).
Proof.
  intros Hsub Hstored. revert h.
  induction fuel as [|fuel IH]; intros h; simpl; [done|].
  unfold contains, extendedCharMatch.
  destruct (t !! h) as [entry|] eqn:Hl.
  - rewrite (lookup_weaken _ _ _ _ Hl Hsub).
    destruct (negb _); [apply IH|].
    destruct (points_match _ _); [|apply IH].
    by intros [= <-].
  - intros [= <-]. simpl in Hstored. rewrite Hstored. simpl.
    rewrite Z.eqb_refl. simpl. by rewrite points_match_refl.
Qed.

(** A table that is not full has a free slot. *)
Lemma free_slot (t : table) :
  table_wf t → (size t < slots)%nat →
  ∃ f, 0 ≤ f < 65536 ∧ t !! f = None.
Proof.
  intros Hwf Hsize.
  destruct (decide (Exists (λ k, t !! k = None) (seqZ 0 65536))) as [Hex|Hno].
  - apply Exists_exists in Hex as (f & Hin & Hf).
    apply elem_of_seqZ in Hin. exists f. split; [lia|done].
  - exfalso.
    assert (Hall : ∀ k, k ∈ seqZ 0 65536 → k ∈ dom t).
    { intros k Hk. apply elem_of_dom.
      destruct (t !! k) eqn:Hl; [done|].
      exfalso. apply Hno, Exists_exists. by exists k. }
    assert (Hsub : (list_to_set (seqZ 0 65536) : gset Z) ⊆ dom t).
    { intros k Hk. apply Hall. by apply elem_of_list_to_set in Hk. }
    apply subseteq_size in Hsub.
    rewrite size_list_to_set in Hsub by apply NoDup_seqZ.
    rewrite length_seqZ, size_dom in Hsub. unfold slots in Hsize. lia.
Qed.

(** Starting anywhere, the loop reaches a free slot or a matching entry
    before it has visited every slot. *)
Lemma probe_returns_at (d : nat) t h f pts fuel :
  0 ≤ h < 65536 → 0 ≤ f < 65536 → t !! f = None →
  (f - h) mod 65536 = Z.of_nat d → (d < fuel)%nat →
  ∃ r, probe fuel t h pts = Some r.
Proof.
  revert h fuel. induction d as [|d IH]; intros h fuel Hh Hf Hfree Hd Hfuel.
  - assert (h = f) as ->.
    { Z.div_mod_to_equations. lia. }
    destruct fuel as [|fuel]; [lia|]. simpl. unfold contains.
    rewrite Hfree. eauto.
  - destruct fuel as [|fuel]; [lia|]. simpl.
    destruct (contains t h); [|eauto].
    destruct (extendedCharMatch t h pts); [eauto|].
    apply IH; try done; [apply ushort_range| |lia].
    unfold ushort. Z.div_mod_to_equations. lia.
Qed.

Lemma probe_returns t h pts :
  table_wf t → (size t < slots)%nat → 0 ≤ h < 65536 →
  ∃ r, probe slots t h pts = Some r.
Proof.
  intros Hwf Hsize Hh.
  destruct (free_slot t Hwf Hsize) as (f & Hf & Hfree).
  apply (probe_returns_at (Z.to_nat ((f - h) mod 65536)) t h f); try done.
  - rewrite Z2Nat.id; [done|]. apply Z.mod_pos_bound. lia.
  - unfold slots. pose proof (Z.mod_pos_bound (f - h) 65536). lia.
Qed.


(** What one call of [createExtendedChar] does to the table. *)
Lemma createExtendedChar_post fuel t pts h t' :
  table_wf t → valid_seq pts →
  createExtendedChar fuel t pts = Some (h, t') →
  table_wf t' ∧ t ⊆ t' ∧ t' !! h = Some (buffer_of pts) ∧
  (size t' ≤ S (size t))%nat.
Proof.
  intros Hwf Hvalid. unfold createExtendedChar.
  destruct (probe fuel t (extendedCharHash pts) pts) as [r|] eqn:Hp; [|done].
  destruct (probe_sound _ _ _ _ _ Hwf (extendedCharHash_range pts) Hp)
    as [Hpost Hrange].
  destruct r as [e|v]; simpl in *; intros [= <- <-].
  - split; [done|]. split; [done|]. split; [done|]. lia.
  - split; [|split; [|split]].
    + intros k entry. rewrite lookup_insert. case_decide as Hk.
      * intros [= <-]. subst k. split; [done|]. by exists pts.
      * apply Hwf.
    + by apply insert_subseteq.
    + by rewrite lookup_insert_eq.
    + by rewrite map_size_insert_None.
Qed.

Lemma reachable_wf t : reachable t → table_wf t.
Proof.
  induction 1 as [|t fuel pts h t' _ IH Hvalid Hcreate].
  - intros h entry. by rewrite lookup_empty.
  - by destruct (createExtendedChar_post _ _ _ _ _ IH Hvalid Hcreate).
Qed.

(** In a table with a free slot the call returns. *)
Lemma createExtendedChar_returns t pts :
  table_wf t → (size t < slots)%nat →
  ∃ h t', createExtendedChar slots t pts = Some (h, t').
Proof.
  intros Hwf Hsize. unfold createExtendedChar.
  destruct (probe_returns t (extendedCharHash pts) pts Hwf Hsize
              (extendedCharHash_range pts)) as [[e|v] ->]; eauto.
Qed.

Lemma probe_vacant fuel t h pts v :
  probe fuel t h pts = Some (Vacant v) → t !! v = None.
Proof.
  revert h. induction fuel as [|fuel IH]; intros h; simpl; [done|].
  unfold contains. destruct (t !! h) eqn:Hl.
  - destruct (extendedCharMatch t h pts); [done|]. apply IH.
  - by intros [= <-].
Qed.

(** Once a sequence is stored under [h], interning it again returns [h] and
    leaves the table as it is, in this table and in every later one. *)
Lemma createExtendedChar_again fuel t pts h t' t'' :
  createExtendedChar fuel t pts = Some (h, t') →
  t' ⊆ t'' → t' !! h = Some (buffer_of pts) →
  createExtendedChar fuel t'' pts = Some (h, t'').
Proof.
  unfold createExtendedChar.
  destruct (probe fuel t (extendedCharHash pts) pts) as [r|] eqn:Hp; [|done].
  intros Hret Hsub Hstored.
  assert (handle_of r = h ∧ t ⊆ t') as [Hh Htt'].
  { destruct r as [e|v]; simplify_eq/=; split; try done.
    apply insert_subseteq. by eapply probe_vacant. }
  assert (Hst : probe fuel t'' (extendedCharHash pts) pts
                = Some (Existing (handle_of r))).
  { apply (probe_stable fuel t t''); [by transitivity t'| |done].
    rewrite Hh. by apply (lookup_weaken t'). }
  by rewrite Hst, Hh.
Qed.

Lemma lookupExtendedChar_stored t h pts :
  t !! h = Some (buffer_of pts) →
  lookupExtendedChar t h = (Some pts, seq_length pts).
Proof. intros Hl. unfold lookupExtendedChar. by rewrite Hl. Qed.

Lemma resolved_stored t h pts :
  t !! h = Some (buffer_of pts) → resolved t h = pts.
Proof.
  intros Hl. unfold resolved. rewrite (lookupExtendedChar_stored _ _ _ Hl).
  unfold seq_length. rewrite Nat2Z.id. apply firstn_all.
Qed.

(** *** The table that holds every one-element sequence *)

Lemma singles_lookup n h :
  singles n !! h =
  if decide (0 ≤ h < Z.of_nat n) then Some [1; h] else None.
Proof.
  induction n as [|n IH]; cbn [singles].
  - rewrite lookup_empty. case_decide; [lia|done].
  - rewrite lookup_insert, IH.
    repeat case_decide; subst; try done; lia.
Qed.

Lemma singles_step n :
  (n < slots)%nat →
  createExtendedChar 1 (singles n) [Z.of_nat n]
  = Some (Z.of_nat n, singles (S n)).
Proof.
  intros Hn. unfold slots in Hn.
  unfold createExtendedChar, extendedCharHash. simpl.
  rewrite ushort_small by lia. unfold contains.
  rewrite singles_lookup. case_decide; [lia|done].
Qed.

Lemma singles_reachable n : (n ≤ slots)%nat → reachable (singles n).
Proof.
  induction n as [|n IH]; intros Hn.
  - apply reachable_empty.
  - apply (reachable_create (singles n) 1%nat [Z.of_nat n] (Z.of_nat n)).
    + apply IH. lia.
    + unfold slots in Hn. split; [unfold seq_length; simpl; lia|].
      repeat constructor; lia.
    + apply singles_step. lia.
Qed.

Lemma full_table_lookup h :
  0 ≤ h < 65536 → full_table !! h = Some [1; h].
Proof.
  intros Hh. unfold full_table. rewrite singles_lookup.
  destruct (decide (0 ≤ h < Z.of_nat slots)) as [_|Hn]; [done|].
  unfold slots in Hn. lia.
Qed.

Lemma full_table_probe fuel h :
  0 ≤ h < 65536 → probe fuel full_table h [0; 0] = None.
Proof.
  revert h. induction fuel as [|fuel IH]; intros h Hh; cbn [probe]; [done|].
  unfold contains, extendedCharMatch.
  rewrite (full_table_lookup h Hh).
  change (negb (hd 0 [1; h] =? seq_length [0; 0])) with true. cbn iota.
  apply IH, ushort_range.
Qed.


(** C1, counterexample.  After the 65536 one-element sequences [[0]] ...
    [[65535]] have been interned every slot is taken; interning the
    two-element sequence [[0; 0]], which is distinct from all of them, then
    never returns a handle, whatever the number of loop iterations. *)
Lemma createExtendedChar_full_table_never_returns :
  reachable full_table ∧ valid_seq [0; 0] ∧
  ∀ fuel, createExtendedChar fuel full_table [0; 0] = None.
Proof.
  split; [|split].
  - apply singles_reachable. lia.
  - split; [unfold seq_length; simpl; lia|]. repeat constructor; lia.
  - intros fuel. unfold createExtendedChar.
    rewrite full_table_probe; [done|]. apply extendedCharHash_range.
Qed.

(** C1 (amended).  In a table built by [createExtendedChar], whenever the
    calls for two distinct non-empty sequences [A] and [B] return, they
    return two different handles; interning [A] or [B] again returns the
    same handle and leaves the table unchanged; and [lookupExtendedChar] on
    a handle gives back the interned sequence with its length.  The calls do
    return, within one pass over the 65536 slots, as long as the table has
    room for two more entries. *)
Theorem createExtendedChar_interns (t : table) (A B : list Z) :
  reachable t → valid_seq A → valid_seq B → A ≠ B →
  (∀ fuelA fuelB hA tA hB tB,
     createExtendedChar fuelA t A = Some (hA, tA) →
     createExtendedChar fuelB tA B = Some (hB, tB) →
     hA ≠ hB ∧
     lookupExtendedChar tA hA = (Some A, seq_length A) ∧
     createExtendedChar fuelA tA A = Some (hA, tA) ∧
     createExtendedChar fuelA tB A = Some (hA, tB) ∧
     createExtendedChar fuelB tB B = Some (hB, tB) ∧
     lookupExtendedChar tB hA = (Some A, seq_length A) ∧
     lookupExtendedChar tB hB = (Some B, seq_length B)) ∧
  ((size t + 2 ≤ slots)%nat →
   ∃ hA tA hB tB,
     createExtendedChar slots t A = Some (hA, tA) ∧
     createExtendedChar slots tA B = Some (hB, tB)).
Proof.
  intros Hreach HA HB Hne.
  pose proof (reachable_wf t Hreach) as Hwf. split.
  - intros fuelA fuelB hA tA hB tB HcA HcB.
    destruct (createExtendedChar_post _ _ _ _ _ Hwf HA HcA)
      as (HwfA & HsubA & HstA & _).
    destruct (createExtendedChar_post _ _ _ _ _ HwfA HB HcB)
      as (HwfB & HsubB & HstB & _).
    pose proof (lookup_weaken _ _ _ _ HstA HsubB) as HstA'.
    split; [|split; [|split; [|split; [|split; [|split]]]]].
    + intros ->. rewrite HstA' in HstB. apply Hne, buffer_of_inj. congruence.
    + by apply lookupExtendedChar_stored.
    + by apply (createExtendedChar_again fuelA t A hA tA tA).
    + by apply (createExtendedChar_again fuelA t A hA tA tB).
    + by apply (createExtendedChar_again fuelB tA B hB tB tB).
    + by apply lookupExtendedChar_stored.
    + by apply lookupExtendedChar_stored.
  - intros Hsize.
    destruct (createExtendedChar_returns t A Hwf) as (hA & tA & HcA); [lia|].
    destruct (createExtendedChar_post _ _ _ _ _ Hwf HA HcA)
      as (HwfA & _ & _ & HsizeA).
    destruct (createExtendedChar_returns tA B HwfA) as (hB & tB & HcB); [lia|].
    by exists hA, tA, hB, tB.
Qed.

(** The empty table, [[1; 2]] and [[3]]. *)
Lemma createExtendedChar_interns_witness :
  ∃ hA tA hB tB,
    createExtendedChar slots ∅ [1; 2] = Some (hA, tA) ∧
    createExtendedChar slots tA [3] = Some (hB, tB) ∧
    hA ≠ hB ∧
    lookupExtendedChar tB hA = (Some [1; 2], seq_length [1; 2]) ∧
    lookupExtendedChar tB hB = (Some [3], seq_length [3]).
Proof.
  destruct (createExtendedChar_interns ∅ [1; 2] [3]) as [Hpartial Htotal].
  - apply reachable_empty.
  - split; [unfold seq_length; simpl; lia|]. repeat constructor; lia.
  - split; [unfold seq_length; simpl; lia|]. repeat constructor; lia.
  - discriminate.
  - destruct Htotal as (hA & tA & hB & tB & HcA & HcB).
    { rewrite map_size_empty. unfold slots. lia. }
    destruct (Hpartial _ _ _ _ _ _ HcA HcB) as (Hne & _ & _ & _ & _ & HlA & HlB).
    exists hA, tA, hB, tB. repeat split; assumption.
Defined.

End ExtendedCharTableProofs.

(* ===================================================================== *)
(** ** Facts about the Emulation *)
(* ===================================================================== *)

Module EmulationProofs.
Import Emulation.

(** *** Buffer switching *)

Lemma land_1_even n : Z.land n 1 = if Z.even n then 0 else 1.
Proof.
  change 1 with (Z.ones 1) at 1. rewrite Z.land_ones by lia.
  change (2 ^ 1) with 2. apply Zmod_even.
Qed.

Lemma screen_cell_land n :
  screen_cell (Z.land n 1) = Some (if Z.even n then Primary else Alternate).
Proof. rewrite land_1_even. by destruct (Z.even n). Qed.

(** C10.  [setScreen n] makes the first screen current when [n] is even and
    the second one when [n] is odd; [n & 1] is always the index of one of
    the two cells of [_screen], also for negative [n]. *)
Theorem setScreen_low_bit (n : Z) (e : Emulation) :
  0 ≤ Z.land n 1 ≤ 1 ∧
  screen_cell (Z.land n 1) = Some (if Z.even n then Primary else Alternate) ∧
  _currentScreen (setScreen n e) = (if Z.even n then Primary else Alternate) ∧
  screen_at (setScreen n e) (_currentScreen (setScreen n e))
  = (if Z.even n then _screen0 e else _screen1 e).
Proof.
  split; [rewrite land_1_even; destruct (Z.even n); lia|].
  split; [apply screen_cell_land|].
  unfold setScreen. rewrite screen_cell_land.
  destruct (Z.even n), e as [ws [] s0 s1 d t1 t2 k l]; simpl; done.
Qed.

(** C7.  [setScreen] changes neither screen, whatever the index, so both
    screens are the same after switching away and back; nothing but the
    current-screen pointer and the windows is touched; and the windows get
    a [setScreen] call, each exactly one and with the new current screen,
    exactly when the current screen has changed. *)
Theorem setScreen_frame (n m : Z) (e : Emulation) :
  let e' := setScreen n e in
  _screen0 e' = _screen0 e ∧ _screen1 e' = _screen1 e ∧
  _screen0 (setScreen m e') = _screen0 e ∧
  _screen1 (setScreen m e') = _screen1 e ∧
  emitted e' = emitted e ∧
  _bulkTimer1 e' = _bulkTimer1 e ∧ _bulkTimer2 e' = _bulkTimer2 e ∧
  _windows e' =
    (if decide (_currentScreen e' ≠ _currentScreen e)
     then map (ScreenWindow_setScreen (_currentScreen e')) (_windows e)
     else _windows e).
Proof.
  unfold setScreen. rewrite !screen_cell_land.
  destruct (Z.even n), (Z.even m), e as [ws [] s0 s1 d t1 t2 k l]; simpl; done.
Qed.

(** *** Character dispatch *)

Lemma land_255_range c : 0 ≤ Z.land c 255 < 256.
Proof.
  change 255 with (Z.ones 8). rewrite Z.land_ones by lia.
  apply Z.mod_pos_bound. lia.
Qed.

Lemma land_255_small c : 0 ≤ c < 256 → Z.land c 255 = c.
Proof.
  intros. change 255 with (Z.ones 8). rewrite Z.land_ones by lia.
  by apply Z.mod_small.
Qed.

(** C4, counterexample.  The code point U+0141 is not a control character,
    yet the glyph written is U+0041; and the code point U+0108 is handled
    as a backspace. *)
Lemma receiveChar_high_codepoint :
  contents (_screen0 (receiveChar 321 (Emulation_new latin1)))
  = [displayCharacter 65] ∧
  contents (_screen0 (receiveChar 321 (Emulation_new latin1)))
  ≠ [displayCharacter 321] ∧
  contents (_screen0 (receiveChar 264 (Emulation_new latin1))) = [backspace].
Proof. repeat split; done. Qed.

(** C4 (amended).  [receiveChar c] dispatches on the low eight bits
    [c & 0xff] of the code point: 8 is a backspace, 9 a tab, 10 a new line,
    13 a return to the start of the line, all on the current screen; 7 emits
    [stateSet(NOTIFYBELL)] and leaves the screens alone; every other value
    is displayed, as the glyph [c & 0xff], on the current screen.  For code
    points below 256 that is the code point itself. *)
Theorem receiveChar_dispatch (c : Z) (e : Emulation) :
  let b := Z.land c 255 in
  (b = 8 → calls_screen backspace e (receiveChar c e)) ∧
  (b = 9 → calls_screen tab e (receiveChar c e)) ∧
  (b = 10 → calls_screen newLine e (receiveChar c e)) ∧
  (b = 13 → calls_screen toStartOfLine e (receiveChar c e)) ∧
  (b = 7 →
     receiveChar c e = emit (stateSet NOTIFYBELL) e ∧
     emitted (receiveChar c e) = emitted e ++ [stateSet NOTIFYBELL] ∧
     _screen0 (receiveChar c e) = _screen0 e ∧
     _screen1 (receiveChar c e) = _screen1 e) ∧
  (b ∉ [8; 9; 10; 13; 7] →
     calls_screen (displayCharacter b) e (receiveChar c e)) ∧
  (0 ≤ c < 256 → b = c).
Proof.
  intros b. unfold receiveChar. fold b.
  repeat (split; [intros ->; by destruct e as [ws [] s0 s1 d t1 t2 k l]|]).
  split; [|apply land_255_small].
  intros Hb. rewrite !not_elem_of_cons in Hb.
  destruct Hb as (H8 & H9 & H10 & H13 & H7 & _).
  apply Z.eqb_neq in H8, H9, H10, H13, H7. rewrite H8, H9, H10, H13, H7.
  by destruct e as [ws [] s0 s1 d t1 t2 k l].
Qed.

(** Backspace, bell and U+0141 on a new emulation. *)
Lemma receiveChar_dispatch_witness :
  calls_screen backspace (Emulation_new latin1)
               (receiveChar 8 (Emulation_new latin1)) ∧
  emitted (receiveChar 7 (Emulation_new latin1)) = [stateSet NOTIFYBELL] ∧
  calls_screen (displayCharacter 65) (Emulation_new latin1)
               (receiveChar 321 (Emulation_new latin1)).
Proof.
  split; [|split].
  - apply (receiveChar_dispatch 8 (Emulation_new latin1)). reflexivity.
  - apply (receiveChar_dispatch 7 (Emulation_new latin1)). reflexivity.
  - apply (receiveChar_dispatch 321 (Emulation_new latin1)).
    rewrite !not_elem_of_cons.
    repeat split; try (vm_compute; discriminate). apply not_elem_of_nil.
Defined.


(** *** The z-modem indicator *)

Lemma strncmp_B00 l :
  Z.eqb (strncmp l B00 3) 0 = bool_decide (take 3 l = B00).
Proof.
  unfold B00.
  destruct l as [|a [|b [|c l]]]; simpl;
    repeat match goal with
           | |- context [Z.eqb ?x ?y] => destruct (Z.eqb_spec x y); simpl
           end;
    repeat match goal with
           | H : context [Z.eqb ?x ?y] |- _ =>
               destruct (Z.eqb_spec x y); simpl in H
           end;
    try case_bool_decide; simplify_eq; try done; try lia.
Qed.

Lemma count_signal_snoc s log x :
  count_signal s (log ++ [x])
  = (count_signal s log + (if decide (x = s) then 1 else 0))%nat.
Proof.
  unfold count_signal. rewrite filter_app, length_app. f_equal.
  rewrite filter_cons, filter_nil. by case_decide.
Qed.

Lemma zmodem_step_emitted text e i :
  emitted (zmodem_step text e i)
  = emitted e ++ (if marker_at text i then [zmodemDetected] else []).
Proof.
  unfold zmodem_step, marker_at. rewrite strncmp_B00.
  destruct (nth i text 0 =? 24); simpl; [|by rewrite app_nil_r].
  destruct (_ >? 3); simpl; [|by rewrite app_nil_r].
  case_bool_decide; simpl; [done|by rewrite app_nil_r].
Qed.

Lemma zmodem_loop_count text indices e :
  count_signal zmodemDetected (emitted (fold_left (zmodem_step text) indices e))
  = (count_signal zmodemDetected (emitted e)
     + length (filter (λ i, marker_at text i = true) indices))%nat.
Proof.
  revert e. induction indices as [|i indices IH]; intros e; simpl; [lia|].
  rewrite IH, zmodem_step_emitted, filter_cons.
  destruct (marker_at text i) eqn:Hm.
  - rewrite count_signal_snoc. case_decide; [|done]. case_decide; [|done].
    simpl. lia.
  - rewrite app_nil_r. case_decide; [done|]. lia.
Qed.

Lemma receiveChar_no_zmodem c e :
  count_signal zmodemDetected (emitted (receiveChar c e))
  = count_signal zmodemDetected (emitted e).
Proof.
  unfold receiveChar.
  repeat case_match; destruct e as [ws [] s0 s1 d t1 t2 k l]; simpl; try done.
  all: rewrite count_signal_snoc; case_decide; [done|lia].
Qed.

Lemma receiveChars_no_zmodem cs e :
  count_signal zmodemDetected (emitted (fold_left (λ e c, receiveChar c e) cs e))
  = count_signal zmodemDetected (emitted e).
Proof.
  revert e. induction cs as [|c cs IH]; intros e; simpl; [done|].
  by rewrite IH, receiveChar_no_zmodem.
Qed.

Lemma bufferedUpdate_emitted e : emitted (bufferedUpdate e) = emitted e.
Proof. unfold bufferedUpdate. simpl. by destruct (negb _). Qed.

Lemma bufferedUpdate_decoder e : _decoder (bufferedUpdate e) = _decoder e.
Proof. unfold bufferedUpdate. simpl. by destruct (negb _). Qed.

(** C5, counterexample.  A chunk with two markers raises two notifications,
    and a chunk that ends right after ["B00"] raises none. *)
Lemma receiveData_zmodem_not_once :
  count_signal zmodemDetected
    (emitted (receiveData [24; 66; 48; 48; 24; 66; 48; 48; 13]
                          (Emulation_new latin1))) = 2%nat ∧
  count_signal zmodemDetected
    (emitted (receiveData [24; 66; 48; 48] (Emulation_new latin1))) = 0%nat.
Proof. split; reflexivity. Qed.

(** C5 (amended).  One call of [receiveData] emits [zmodemDetected] once for
    every index of the chunk that holds 0x18, is followed by more than three
    bytes, and has ["B00"] as the first three of them: as many
    notifications as there are such indices, and none without a decoder. *)
Theorem receiveData_zmodem_count (text : list Z) (e : Emulation) :
  count_signal zmodemDetected (emitted (receiveData text e))
  = (count_signal zmodemDetected (emitted e)
     + match _decoder e with
       | Some _ => count_markers text
       | None => 0
       end)%nat.
Proof.
  unfold receiveData.
  rewrite bufferedUpdate_decoder. cbn [_decoder emit].
  destruct (_decoder e) as [d|].
  - destruct (QStringDecoder_decode d text) as [cs d'].
    rewrite zmodem_loop_count, receiveChars_no_zmodem. cbn [emitted set_decoder].
    rewrite bufferedUpdate_emitted. cbn [emitted emit].
    rewrite count_signal_snoc. case_decide; [done|]. unfold count_markers. lia.
  - rewrite bufferedUpdate_emitted. cbn [emitted emit].
    rewrite count_signal_snoc. case_decide; [done|]. lia.
Qed.


(** *** Coalesced updates *)

Lemma bufferedUpdate_screens e :
  _screen0 (bufferedUpdate e) = _screen0 e ∧
  _screen1 (bufferedUpdate e) = _screen1 e ∧
  _currentScreen (bufferedUpdate e) = _currentScreen e ∧
  _windows (bufferedUpdate e) = _windows e ∧
  clock (bufferedUpdate e) = clock e.
Proof. unfold bufferedUpdate. simpl. by destruct (negb _). Qed.

Lemma bufferedUpdate_timer1 e :
  isActive (_bulkTimer1 (bufferedUpdate e)) = true ∧
  isSingleShot (_bulkTimer1 (bufferedUpdate e)) = true ∧
  deadline (_bulkTimer1 (bufferedUpdate e)) = clock e + BULK_TIMEOUT1.
Proof. unfold bufferedUpdate. simpl. by destruct (negb _). Qed.

Lemma bufferedUpdate_timer2 e :
  _bulkTimer2 (bufferedUpdate e)
  = if isActive (_bulkTimer2 e) then _bulkTimer2 e
    else mkTimer true true (clock e + BULK_TIMEOUT2).
Proof. unfold bufferedUpdate. simpl. by destruct (isActive (_bulkTimer2 e)). Qed.

Lemma receiveChar_timers c e :
  _bulkTimer1 (receiveChar c e) = _bulkTimer1 e ∧
  _bulkTimer2 (receiveChar c e) = _bulkTimer2 e.
Proof.
  unfold receiveChar.
  repeat case_match; by destruct e as [ws [] s0 s1 d t1 t2 k l].
Qed.

Lemma zmodem_step_timers text e i :
  _bulkTimer1 (zmodem_step text e i) = _bulkTimer1 e ∧
  _bulkTimer2 (zmodem_step text e i) = _bulkTimer2 e.
Proof. unfold zmodem_step. by repeat case_match. Qed.

Lemma receiveData_timers text e :
  _bulkTimer1 (receiveData text e) = _bulkTimer1 (bufferedUpdate e) ∧
  _bulkTimer2 (receiveData text e) = _bulkTimer2 (bufferedUpdate e).
Proof.
  unfold receiveData.
  set (e1 := bufferedUpdate (emit _ e)).
  assert (H1 : _bulkTimer1 e1 = _bulkTimer1 (bufferedUpdate e)
               ∧ _bulkTimer2 e1 = _bulkTimer2 (bufferedUpdate e)).
  { unfold e1, bufferedUpdate. simpl. by destruct (negb _). }
  destruct (_decoder e1) as [d|]; [|done].
  destruct (QStringDecoder_decode d text) as [cs d'].
  destruct H1 as [<- <-].
  change (_bulkTimer1 e1) with (_bulkTimer1 (set_decoder (Some d') e1)).
  change (_bulkTimer2 e1) with (_bulkTimer2 (set_decoder (Some d') e1)).
  generalize (set_decoder (Some d') e1) as e2. intros e2.
  assert (Hz : ∀ indices e3,
             _bulkTimer1 (fold_left (zmodem_step text) indices e3) = _bulkTimer1 e3
             ∧ _bulkTimer2 (fold_left (zmodem_step text) indices e3) = _bulkTimer2 e3).
  { induction indices as [|i indices IH]; intros e3; simpl; [done|].
    destruct (IH (zmodem_step text e3 i)) as [-> ->].
    apply zmodem_step_timers. }
  destruct (Hz (seq 0 (length text))
               (fold_left (λ e c, receiveChar c e) cs e2)) as [-> ->].
  clear Hz. revert e2. induction cs as [|c cs IH]; intros e2; simpl; [done|].
  destruct (IH (receiveChar c e2)) as [-> ->]. apply receiveChar_timers.
Qed.

Lemma setImageSize_arms lines columns e :
  1 ≤ lines → 1 ≤ columns →
  ¬ (getLines (_screen0 e) = lines ∧ getColumns (_screen0 e) = columns ∧
     getLines (_screen1 e) = lines ∧ getColumns (_screen1 e) = columns) →
  _bulkTimer1 (setImageSize lines columns e) = _bulkTimer1 (bufferedUpdate e) ∧
  _bulkTimer2 (setImageSize lines columns e) = _bulkTimer2 (bufferedUpdate e).
Proof.
  intros Hl Hc Hsize. unfold setImageSize.
  destruct (Z.ltb_spec lines 1); [lia|]. destruct (Z.ltb_spec columns 1); [lia|].
  cbn [orb].
  destruct (bool_decide _ && bool_decide _) eqn:Hsame.
  - exfalso. apply Hsize. apply andb_true_iff in Hsame as [Hs0 Hs1].
    apply bool_decide_eq_true in Hs0. apply bool_decide_eq_true in Hs1.
    by simplify_eq.
  - unfold bufferedUpdate. simpl. by destruct (negb _).
Qed.

Lemma showBulk_flushes e :
  let e' := showBulk e in
  isActive (_bulkTimer1 e') = false ∧
  isActive (_bulkTimer2 e') = false ∧
  emitted e' = emitted e ++ [outputChanged] ∧
  scrolledLines (screen_at e' (_currentScreen e')) = 0 ∧
  droppedLines (screen_at e' (_currentScreen e')) = 0 ∧
  elapse e' = None.
Proof.
  unfold elapse, next_timeout.
  destruct e as [ws cur s0 s1 dc t1 t2 k l]. by destruct cur.
Qed.

(** C8, as stated, fails: a character displayed on a new emulation changes
    the contents of the current screen, and no deadline is armed, so that
    no notification follows.  Clearing the history arms no deadline either,
    whatever [setScroll] does to the primary screen. *)
Lemma receiveChar_arms_no_deadline :
  contents (screen_at (Emulation_new latin1)
                      (_currentScreen (Emulation_new latin1))) = [] ∧
  contents (screen_at (receiveChar 65 (Emulation_new latin1))
                      (_currentScreen (Emulation_new latin1)))
  = [displayCharacter 65] ∧
  isActive (_bulkTimer1 (receiveChar 65 (Emulation_new latin1))) = false ∧
  isActive (_bulkTimer2 (receiveChar 65 (Emulation_new latin1))) = false ∧
  elapse (receiveChar 65 (Emulation_new latin1)) = None ∧
  emitted (receiveChar 65 (Emulation_new latin1)) = [] ∧
  ∀ (HistoryType : Type) (getScroll : Screen → HistoryType)
    (setScroll : HistoryType → bool → Screen → Screen),
    _screen0 (clearHistory HistoryType getScroll setScroll (Emulation_new latin1))
    = setScroll (getScroll (Screen_new 40 80)) false (Screen_new 40 80) ∧
    elapse (clearHistory HistoryType getScroll setScroll (Emulation_new latin1))
    = None ∧
    emitted (clearHistory HistoryType getScroll setScroll (Emulation_new latin1))
    = [].
Proof. repeat split; reflexivity. Qed.

(** C8 (amended).  The operations that call [bufferedUpdate], which are
    [receiveData] and a [setImageSize] that changes the size, leave the
    timers as [bufferedUpdate] does: the short timer is restarted, due 10 ms
    from now whatever its state was, and the long timer is started, due
    40 ms from now, only if it is not running; [bufferedUpdate] does nothing
    else.  [receiveChar] and [clearHistory] leave both timers as they are,
    and [setHistory] runs [showBulk] at once.  When a timer is running the
    earlier of the pending deadlines elapses, and that runs [showBulk]:
    both timers are stopped, [outputChanged] is emitted once, the
    scrolled-line and dropped-line counters of the current screen are zero,
    and no timeout is pending afterwards. *)
Theorem bufferedUpdate_callers_coalesce (e : Emulation) :
  (isActive (_bulkTimer1 (bufferedUpdate e)) = true ∧
   deadline (_bulkTimer1 (bufferedUpdate e)) = clock e + 10) ∧
  (isActive (_bulkTimer2 e) = true →
     _bulkTimer2 (bufferedUpdate e) = _bulkTimer2 e) ∧
  (isActive (_bulkTimer2 e) = false →
     isActive (_bulkTimer2 (bufferedUpdate e)) = true ∧
     deadline (_bulkTimer2 (bufferedUpdate e)) = clock e + 40) ∧
  (emitted (bufferedUpdate e) = emitted e ∧
   _screen0 (bufferedUpdate e) = _screen0 e ∧
   _screen1 (bufferedUpdate e) = _screen1 e) ∧
  (∀ text,
     _bulkTimer1 (receiveData text e) = _bulkTimer1 (bufferedUpdate e) ∧
     _bulkTimer2 (receiveData text e) = _bulkTimer2 (bufferedUpdate e)) ∧
  (∀ lines columns,
     1 ≤ lines → 1 ≤ columns →
     ¬ (getLines (_screen0 e) = lines ∧ getColumns (_screen0 e) = columns ∧
        getLines (_screen1 e) = lines ∧ getColumns (_screen1 e) = columns) →
     _bulkTimer1 (setImageSize lines columns e) = _bulkTimer1 (bufferedUpdate e) ∧
     _bulkTimer2 (setImageSize lines columns e) = _bulkTimer2 (bufferedUpdate e)) ∧
  (∀ c,
     _bulkTimer1 (receiveChar c e) = _bulkTimer1 e ∧
     _bulkTimer2 (receiveChar c e) = _bulkTimer2 e) ∧
  (∀ (HistoryType : Type) (getScroll : Screen → HistoryType)
     (setScroll : HistoryType → bool → Screen → Screen),
     let e' := clearHistory HistoryType getScroll setScroll e in
     _bulkTimer1 e' = _bulkTimer1 e ∧ _bulkTimer2 e' = _bulkTimer2 e ∧
     emitted e' = emitted e) ∧
  (∀ (HistoryType : Type) (setScroll : HistoryType → bool → Screen → Screen)
     (copyPreviousScroll : bool) (t : HistoryType),
     let e' := setHistory HistoryType setScroll copyPreviousScroll t e in
     isActive (_bulkTimer1 e') = false ∧
     isActive (_bulkTimer2 e') = false ∧
     emitted e' = emitted e ++ [outputChanged] ∧
     scrolledLines (screen_at e' (_currentScreen e')) = 0 ∧
     droppedLines (screen_at e' (_currentScreen e')) = 0 ∧
     elapse e' = None) ∧
  (isActive (_bulkTimer1 e) = true ∨ isActive (_bulkTimer2 e) = true →
     ∃ d e',
       next_timeout e = Some d ∧
       (isActive (_bulkTimer1 e) = true → d ≤ deadline (_bulkTimer1 e)) ∧
       (isActive (_bulkTimer2 e) = true → d ≤ deadline (_bulkTimer2 e)) ∧
       elapse e = Some e' ∧
       isActive (_bulkTimer1 e') = false ∧
       isActive (_bulkTimer2 e') = false ∧
       emitted e' = emitted e ++ [outputChanged] ∧
       scrolledLines (screen_at e' (_currentScreen e')) = 0 ∧
       droppedLines (screen_at e' (_currentScreen e')) = 0 ∧
       elapse e' = None) ∧
  (isActive (_bulkTimer1 e) = false → isActive (_bulkTimer2 e) = false →
     elapse e = None).
Proof.
  split; [by destruct (bufferedUpdate_timer1 e) as (? & _ & ?)|].
  split; [intros H; by rewrite bufferedUpdate_timer2, H|].
  split; [intros H; by rewrite bufferedUpdate_timer2, H|].
  split; [by destruct (bufferedUpdate_screens e) as (? & ? & _);
          rewrite bufferedUpdate_emitted|].
  split; [intros text; apply receiveData_timers|].
  split; [intros lines columns; apply setImageSize_arms|].
  split; [intros c; apply receiveChar_timers|].
  split; [intros HistoryType getScroll setScroll e';
          by destruct e as [ws cur s0 s1 dc t1 t2 k l]|].
  split.
  { intros HistoryType setScroll copyPreviousScroll t e'.
    pose proof (showBulk_flushes
                  (update_screen Primary (setScroll t copyPreviousScroll) e))
      as (H1 & H2 & H3 & H4 & H5 & H6).
    unfold e', setHistory. split; [exact H1|]. split; [exact H2|].
    split; [rewrite H3; by destruct e|]. split; [exact H4|].
    split; [exact H5|exact H6]. }
  split.
  - intros Hact. unfold elapse, next_timeout.
    destruct e as [ws cur s0 s1 dc [a1 ss1 d1] [a2 ss2 d2] k l]. simpl in *.
    destruct a1, a2; try (destruct Hact; done); eexists _, _;
      (split; [reflexivity|]); (split; [intros ?; try done; lia|]);
      (split; [intros ?; try done; lia|]);
      (split; [reflexivity|]); by destruct cur.
  - intros H1 H2. unfold elapse, next_timeout. by rewrite H1, H2.
Qed.

(** One update on a new emulation: the flush comes after 10 ms. *)
Lemma bufferedUpdate_callers_coalesce_witness :
  ∃ d e',
    next_timeout (bufferedUpdate (Emulation_new latin1)) = Some d ∧
    d = 10 ∧
    elapse (bufferedUpdate (Emulation_new latin1)) = Some e' ∧
    emitted e' = [outputChanged] ∧
    elapse e' = None.
Proof.
  destruct (bufferedUpdate_callers_coalesce
              (bufferedUpdate (Emulation_new latin1)))
    as (_ & _ & _ & _ & _ & _ & _ & _ & _ & H & _).
  destruct H as (d & e' & Hd & _ & _ & He & _ & _ & Hem & _ & _ & Hno);
    [left; reflexivity|].
  exists d, e'. split; [exact Hd|]. split; [|by split].
  vm_compute in Hd. by injection Hd.
Defined.

(** *** Resizing *)

(** C6.  With a dimension below 1, and with the size that both screens
    already have, [setImageSize] returns the emulation as it was: sizes,
    signal log and timers included.  Otherwise both screens get the new
    size, [imageSizeChanged(lines, columns)] is the one signal emitted, and
    the timers are armed as by [bufferedUpdate]. *)
Theorem setImageSize_cases (lines columns : Z) (e : Emulation) :
  (lines < 1 ∨ columns < 1 → setImageSize lines columns e = e) ∧
  (getLines (_screen0 e) = lines ∧ getColumns (_screen0 e) = columns ∧
   getLines (_screen1 e) = lines ∧ getColumns (_screen1 e) = columns →
   setImageSize lines columns e = e) ∧
  (1 ≤ lines → 1 ≤ columns →
   ¬ (getLines (_screen0 e) = lines ∧ getColumns (_screen0 e) = columns ∧
      getLines (_screen1 e) = lines ∧ getColumns (_screen1 e) = columns) →
   let e' := setImageSize lines columns e in
   getLines (_screen0 e') = lines ∧ getColumns (_screen0 e') = columns ∧
   getLines (_screen1 e') = lines ∧ getColumns (_screen1 e') = columns ∧
   emitted e' = emitted e ++ [imageSizeChanged lines columns] ∧
   _bulkTimer1 e' = _bulkTimer1 (bufferedUpdate e) ∧
   _bulkTimer2 e' = _bulkTimer2 (bufferedUpdate e) ∧
   isActive (_bulkTimer1 e') = true ∧ isActive (_bulkTimer2 e') = true).
Proof.
  unfold setImageSize. split; [|split].
  - intros [H|H]; apply Z.ltb_lt in H; rewrite H; [done|].
    by rewrite orb_true_r.
  - intros (H1 & H2 & H3 & H4). destruct (_ || _); [done|].
    rewrite H1, H2, H3, H4. rewrite bool_decide_eq_true_2; done.
  - intros Hl Hc Hne.
    apply Z.ltb_ge in Hl, Hc. rewrite Hl, Hc. cbn [orb].
    destruct e as [ws cur [l0 c0 sc0 dr0 k0] [l1 c1 sc1 dr1 k1] dc
                      t1 [a2 ss2 d2] k l].
    cbn [_screen0 _screen1 getLines getColumns] in *.
    destruct (bool_decide_reflect ((columns, lines) = (c0, l0)))
      as [[= <- <-]|H0]; cbn [andb].
    + destruct (bool_decide_reflect ((columns, lines) = (c1, l1)))
        as [[= <- <-]|H1]; [by destruct Hne|].
      unfold bufferedUpdate. simpl. by destruct a2.
    + unfold bufferedUpdate. simpl. by destruct a2.
Qed.

(** A new emulation has two 40 x 80 screens. *)
Lemma setImageSize_cases_witness :
  setImageSize 0 80 (Emulation_new latin1) = Emulation_new latin1 ∧
  setImageSize 40 80 (Emulation_new latin1) = Emulation_new latin1 ∧
  emitted (setImageSize 24 100 (Emulation_new latin1))
  = [imageSizeChanged 24 100].
Proof.
  destruct (setImageSize_cases 0 80 (Emulation_new latin1)) as (H1 & _ & _).
  destruct (setImageSize_cases 40 80 (Emulation_new latin1)) as (_ & H2 & _).
  destruct (setImageSize_cases 24 100 (Emulation_new latin1)) as (_ & _ & H3).
  split; [|split].
  - apply H1. left. lia.
  - apply H2. by repeat split.
  - apply H3; [lia|lia|]. simpl. intros (H & _). discriminate H.
Defined.

End EmulationProofs.

(* ===================================================================== *)
(** ** Facts about the HistorySearch *)
(* ===================================================================== *)

Module HistorySearchProofs.
Import HistorySearch.

(** *** Line numbers *)

Lemma findLineNumber_from_bounds rest position lineNum :
  lineNum ≤ findLineNumber_from rest position lineNum
          ≤ lineNum + Z.of_nat (length rest).
Proof.
  revert lineNum. induction rest as [|next rest IH]; intros lineNum;
    cbn [findLineNumber_from length]; [lia|].
  destruct (next <=? position); [|lia].
  specialize (IH (lineNum + 1)). lia.
Qed.

(** The line number found is an index into [linePositions]. *)
Lemma findLineNumberInString_bounds linePositions position :
  linePositions ≠ [] →
  0 ≤ findLineNumberInString linePositions position
    < Z.of_nat (length linePositions).
Proof.
  intros Hne. unfold findLineNumberInString.
  destruct linePositions as [|first rest]; [done|]. cbn [tl length].
  pose proof (findLineNumber_from_bounds rest position 0). lia.
Qed.

(** *** Arithmetic of [int] *)

Lemma int_small z : int_range z → int z = z.
Proof.
  unfold int_range, INT_MIN, INT_MAX, int. intros Hz.
  Z.div_mod_to_equations. lia.
Qed.

Lemma int_range_int z : int_range (int z).
Proof.
  unfold int_range, INT_MIN, INT_MAX, int. Z.div_mod_to_equations. lia.
Qed.

(** While the loop runs, [linesRead] counts up from 0 to [linesToRead] at
    most, so that neither [linesToRead - linesRead] nor
    [linesRead + blockSize] leaves the range of [int]. *)
Lemma blockSize_exact linesToRead linesRead :
  int_range linesToRead → 0 ≤ linesRead ≤ Z.max 0 linesToRead →
  int (linesToRead - linesRead) = linesToRead - linesRead.
Proof.
  unfold int_range, INT_MIN, INT_MAX. intros Hr Hl. apply int_small.
  unfold int_range, INT_MIN, INT_MAX. lia.
Qed.

Lemma linesRead_exact linesToRead linesRead :
  int_range linesToRead → 0 ≤ linesRead ≤ Z.max 0 linesToRead →
  0 < Z.min 10000 (linesToRead - linesRead) →
  int (linesRead + Z.min 10000 (linesToRead - linesRead))
  = linesRead + Z.min 10000 (linesToRead - linesRead).
Proof.
  unfold int_range, INT_MIN, INT_MAX. intros Hr Hl Hb. apply int_small.
  unfold int_range, INT_MIN, INT_MAX. lia.
Qed.

(** *** Termination of the block loop *)

Lemma scanBlocks_returns fuel hs sc sl ec el linesToRead linesRead :
  int_range linesToRead → 0 ≤ linesRead ≤ Z.max 0 linesToRead →
  (Z.to_nat (linesToRead - linesRead) ≤ fuel)%nat →
  ∃ r, scanBlocks fuel hs sc sl ec el linesToRead linesRead = Some r.
Proof.
  intros Hr. revert linesRead.
  induction fuel as [|fuel IH]; intros linesRead Hl Hfuel;
    cbn [scanBlocks]; rewrite blockSize_exact by done.
  - destruct (Z.gtb_spec (Z.min 10000 (linesToRead - linesRead)) 0);
      [lia|eauto].
  - destruct (Z.gtb_spec (Z.min 10000 (linesToRead - linesRead)) 0);
      [|eauto].
    destruct (scanBlock _ _ _ _ _ _ _); [eauto|].
    rewrite linesRead_exact by done. apply IH; lia.
Qed.

Lemma search_range_returns hs sc sl ec el :
  ∃ r, search_range hs sc sl ec el = Some r.
Proof.
  apply scanBlocks_returns; [apply int_range_int|lia|lia].
Qed.

(** More iterations than lines to read change nothing. *)
Lemma scanBlocks_fuel fuel fuel' hs sc sl ec el linesToRead linesRead r :
  (fuel ≤ fuel')%nat →
  scanBlocks fuel hs sc sl ec el linesToRead linesRead = Some r →
  scanBlocks fuel' hs sc sl ec el linesToRead linesRead = Some r.
Proof.
  revert fuel' linesRead.
  induction fuel as [|fuel IH]; intros fuel' linesRead Hle; cbn [scanBlocks].
  - destruct (Z.min 10000 (int (linesToRead - linesRead)) >? 0) eqn:Hb;
      [done|].
    intros <-. destruct fuel'; cbn [scanBlocks]; by rewrite Hb.
  - destruct fuel' as [|fuel']; [lia|]. cbn [scanBlocks].
    destruct (Z.min 10000 (int (linesToRead - linesRead)) >? 0); [|done].
    destruct (scanBlock _ _ _ _ _ _ _); [done|]. apply IH. lia.
Qed.

(** A range of at most 10000 lines is one block. *)
Lemma search_range_one_block hs sc sl ec el :
  0 < el - sl + 1 ≤ 10000 →
  search_range hs sc sl ec el
  = Some (scanBlock hs sc sl ec el 0 (el - sl + 1)).
Proof.
  intros Hn. unfold search_range.
  assert (Hint : int (el - sl + 1) = el - sl + 1).
  { apply int_small. unfold int_range, INT_MIN, INT_MAX. lia. }
  rewrite Hint.
  destruct (Z.to_nat (el - sl + 1)) as [|fuel] eqn:Hfuel; [lia|].
  cbn [scanBlocks]. rewrite Z.sub_0_r, Hint, Z.min_r by lia.
  destruct (Z.gtb_spec (el - sl + 1) 0); [|lia].
  destruct (scanBlock _ _ _ _ _ _ _); [done|].
  assert (Hdone : Z.min 10000 (int (el - sl + 1 - int (0 + (el - sl + 1))))
                  = 0).
  { rewrite Z.add_0_l, Hint, Z.sub_diag. reflexivity. }
  destruct fuel; cbn [scanBlocks]; by rewrite Hdone.
Qed.

(** A range that is empty as the code measures it is not scanned at all. *)
Lemma search_range_empty hs sc sl ec el :
  int (el - sl + 1) ≤ 0 → search_range hs sc sl ec el = Some None.
Proof.
  intros Hn. unfold search_range.
  pose proof (int_range_int (el - sl + 1)) as Hr.
  destruct (Z.to_nat (int (el - sl + 1))); cbn [scanBlocks];
    rewrite Z.sub_0_r, (int_small _ Hr);
    destruct (Z.gtb_spec (Z.min 10000 (int (el - sl + 1))) 0); done || lia.
Qed.

(** *** Emissions of [search()] *)

(** C9.  With an empty pattern [search()] emits nothing and calls
    [deleteLater()].  With any other pattern it returns after emitting
    exactly one signal, [matchFound] or [noMatchFound], and calls
    [deleteLater()]. *)
Theorem search_emits_once (hs : HistorySearch) :
  (pattern (m_regExp hs) = EmptyString →
     search hs = Some (mkOutcome [] true)) ∧
  (pattern (m_regExp hs) ≠ EmptyString →
     ∃ s, search hs = Some (mkOutcome [s] true) ∧
          (s = noMatchFound ∨
           ∃ startColumn startLine endColumn endLine,
             s = matchFound startColumn startLine endColumn endLine)).
Proof.
  unfold search. split.
  - intros ->. done.
  - intros Hne. apply String.eqb_neq in Hne. rewrite Hne. cbn [negb].
    destruct (search_range_returns hs (m_startColumn hs) (m_startLine hs) (-1)
                (lineCount (m_emulation hs))) as [r1 ->].
    destruct (search_range_returns hs 0 0 (m_startColumn hs) (m_startLine hs))
      as [r2 ->].
    destruct (m_forwards hs), r1 as [f1|], r2 as [f2|]; cbn [or_else];
      eexists; (split; [reflexivity|]); eauto 10.
Qed.

(** An empty and a non-empty pattern over the example buffer. *)
Lemma search_emits_once_witness :
  search (mkHistorySearch (emulation_of foo_bar_foobar) (literal EmptyString) true 0 0)
  = Some (mkOutcome [] true) ∧
  ∃ s, search (mkHistorySearch (emulation_of foo_bar_foobar) (literal "bar")
                               true 0 0)
       = Some (mkOutcome [s] true) ∧
       (s = noMatchFound ∨
        ∃ startColumn startLine endColumn endLine,
          s = matchFound startColumn startLine endColumn endLine).
Proof.
  split.
  - apply (search_emits_once
             (mkHistorySearch (emulation_of foo_bar_foobar) (literal EmptyString) true 0 0)).
    reflexivity.
  - apply (search_emits_once
             (mkHistorySearch (emulation_of foo_bar_foobar) (literal "bar")
                              true 0 0)).
    simpl. discriminate.
Defined.


(** *** Matching inside a block *)

Lemma backwardScan_scanned matches sc ep lastMatch :
  backwardScan matches sc ep lastMatch
  = match last (scanned sc ep matches) with
    | Some m => Some m
    | None => lastMatch
    end.
Proof.
  revert lastMatch. induction matches as [|m rest IH]; intros lastMatch;
    cbn [backwardScan scanned]; [done|].
  fold (qualifies sc ep m). destruct (qualifies sc ep m); [|done].
  rewrite IH, last_cons. by destruct (last (scanned sc ep rest)).
Qed.

Lemma filter_none {A} (P : A → Prop) `{∀ x, Decision (P x)} (l : list A) :
  Forall (λ x, ¬ P x) l → filter P l = [].
Proof.
  induction 1 as [|x l Hx _ IH]; [done|].
  by rewrite filter_cons, decide_False.
Qed.

(** When the floor test cannot fail (there is no floor, or no match starts
    below it) and the matches come in increasing order, the loop looks at
    exactly the matches that start below the end boundary. *)
Lemma scanned_no_floor sc ep matches :
  sc = -1 ∨ Forall (λ m, sc ≤ capturedStart m) matches →
  increasing matches →
  scanned sc ep matches
  = filter (λ m, capturedStart m < ep) matches.
Proof.
  intros Hfloor. induction 1 as [|m rest Hsorted IH Hall]; cbn [scanned]; [done|].
  assert (Hm : (sc =? -1) || (capturedStart m >=? sc) = true).
  { apply orb_true_iff. destruct Hfloor as [->|Hf]; [by left|right].
    apply Forall_cons in Hf as [Hf _]. apply Z.geb_le. lia. }
  assert (Hrest : sc = -1 ∨ Forall (λ m, sc ≤ capturedStart m) rest).
  { destruct Hfloor as [->|Hf]; [by left|right]. by apply Forall_cons in Hf as [_ ?]. }
  rewrite filter_cons. unfold qualifies. rewrite Hm, andb_true_r.
  destruct (Z.ltb_spec (capturedStart m) ep) as [Hlt|Hge].
  - rewrite decide_True by done. by rewrite IH.
  - rewrite decide_False by lia. symmetry. apply filter_none.
    eapply Forall_impl; [exact Hall|]. simpl. intros m' Hm'. lia.
Qed.

Lemma last_sorted_max {A} (R : A → A → Prop) (l : list A) (w : A) :
  StronglySorted R l → last l = Some w →
  ∀ m, m ∈ l → m = w ∨ R m w.
Proof.
  induction 1 as [|x rest Hsorted IH Hall]; [done|].
  rewrite last_cons. intros Hlast m Hm.
  destruct (last rest) as [w'|] eqn:Hrest.
  - injection Hlast as ->. apply elem_of_cons in Hm as [->|Hm].
    + right. rewrite Forall_forall in Hall. apply Hall.
      apply last_Some in Hrest as [l' ->]. set_solver.
    + by apply IH.
  - injection Hlast as ->. apply last_None in Hrest as ->.
    apply elem_of_cons in Hm as [->|Hm]; [by left|]. by apply elem_of_nil in Hm.
Qed.

Lemma increasing_filter (P : QRegularExpressionMatch → Prop)
    `{∀ m, Decision (P m)} matches :
  increasing matches → increasing (filter P matches).
Proof.
  induction 1 as [|m rest Hsorted IH Hall]; [constructor|].
  rewrite filter_cons. case_decide; [|done].
  constructor; [done|]. rewrite Forall_forall in Hall |- *.
  intros m' Hm'. apply Hall. by apply list_elem_of_filter in Hm' as [_ ?].
Qed.

(** C3.  In the backward branch the winner is the last of the matches that
    the loop looks at before it breaks, that is, of the longest run of
    matches from the front of the enumeration that start strictly below the
    end boundary and, when there is a floor, at or above it; without such a
    match there is no winner.  When no floor applies (the start column is
    -1, or no match starts below it) and the matches are enumerated in
    increasing order of their start, the winner is the last match below the
    end boundary: it exists as soon as one match starts below the boundary,
    and every other such match starts before it. *)
Theorem backward_match_is_last (regExp : QRegularExpression) (text : string)
    (startColumn endPosition : Z) :
  let matches := globalMatch regExp text in
  let winner := last (scanned startColumn endPosition matches) in
  blockMatch false regExp text startColumn endPosition
  = (winner, match winner with Some m => capturedStart m | None => -1 end) ∧
  (∀ w, winner = Some w →
     w ∈ matches ∧ capturedStart w < endPosition ∧
     (startColumn = -1 ∨ startColumn ≤ capturedStart w)) ∧
  (startColumn = -1 ∨ Forall (λ m, startColumn ≤ capturedStart m) matches →
   increasing matches →
     winner = last (filter (λ m, capturedStart m < endPosition) matches) ∧
     ∀ m, m ∈ matches → capturedStart m < endPosition →
       ∃ w, winner = Some w ∧ (m = w ∨ capturedStart m < capturedStart w)).
Proof.
  intros matches winner. split; [|split].
  - unfold blockMatch. rewrite backwardScan_scanned. fold matches. fold winner.
    by destruct winner.
  - intros w Hw. unfold winner in Hw. apply last_Some_elem_of in Hw.
    clear winner. induction matches as [|m rest IH]; cbn [scanned] in Hw.
    + by apply elem_of_nil in Hw.
    + destruct (qualifies startColumn endPosition m) eqn:Hq;
        [|by apply elem_of_nil in Hw].
      apply elem_of_cons in Hw as [->|Hw].
      * split; [by left|]. unfold qualifies in Hq.
        apply andb_true_iff in Hq as [H1 H2]. apply Z.ltb_lt in H1.
        apply orb_true_iff in H2 as [H2|H2]; [apply Z.eqb_eq in H2|
                                              apply Z.geb_le in H2]; lia.
      * destruct (IH Hw) as (? & ? & ?). split; [by right|done].
  - intros Hfloor Hinc. unfold winner. rewrite scanned_no_floor by done.
    split; [done|]. intros m Hm Hlt.
    assert (Hin : m ∈ filter (λ m, capturedStart m < endPosition) matches)
      by (by apply list_elem_of_filter).
    destruct (last (filter (λ m, capturedStart m < endPosition) matches))
      as [w|] eqn:Hlast.
    + exists w. split; [done|].
      apply (last_sorted_max (λ a b, capturedStart a < capturedStart b)
               (filter (λ m, capturedStart m < endPosition) matches) w);
        [|done|done].
      by apply increasing_filter.
    + apply last_None in Hlast. rewrite Hlast in Hin.
      by apply elem_of_nil in Hin.
Qed.

(** Four occurrences of ["foo"], no floor, the boundary at the end of the
    text: the winner is the occurrence at offset 15, not the one at 0. *)
Lemma backward_match_is_last_witness :
  ∃ w, blockMatch false (literal "foo") "foo bar foo foofoo" (-1) 18
       = (Some w, capturedStart w) ∧
       capturedStart w = 15 ∧
       (mkMatch 0 3 = w ∨ capturedStart (mkMatch 0 3) < capturedStart w).
Proof.
  destruct (backward_match_is_last (literal "foo") "foo bar foo foofoo" (-1) 18)
    as (Hblock & _ & Hlast).
  destruct Hlast as [Hfilter Hmax]; [left; reflexivity| |].
  - vm_compute. repeat constructor.
  - destruct (Hmax (mkMatch 0 3)) as (w & Hw & Hcmp);
      [vm_compute; left | reflexivity |].
    exists w. rewrite Hblock, Hw. split; [reflexivity|]. split; [|exact Hcmp].
    vm_compute in Hw. injection Hw as <-. reflexivity.
Defined.



End HistorySearchProofs.

(* ===================================================================== *)
(** ** More about the ExtendedCharTable *)
(* ===================================================================== *)

Module ExtendedCharTableMore.
Import ExtendedCharTable ExtendedCharTableProofs.

(** *** The hash *)

Lemma extendedCharHash_from_polynomial h pts :
  extendedCharHash_from (h mod 65536) pts
  = polynomial31_from h pts mod 65536.
Proof.
  revert h. induction pts as [|c rest IH]; intros h;
    cbn [extendedCharHash_from polynomial31_from]; [done|].
  rewrite <- IH. f_equal. unfold ushort.
  rewrite <- Zplus_mod_idemp_l, Zmult_mod_idemp_r, Zplus_mod_idemp_l. done.
Qed.

Lemma extendedCharHash_from_app h a b :
  extendedCharHash_from h (a ++ b)
  = extendedCharHash_from (extendedCharHash_from h a) b.
Proof. revert h. induction a as [|c a IH]; intros h; simpl; [done|apply IH]. Qed.

(** X1.  The hash of a sequence is the value of the polynomial with
    multiplier 31 over its code points, reduced modulo 2^16: converting to
    [ushort] after every step loses nothing.  So the hash is a [ushort],
    the hash of a single code point below 2^16 is the code point, and
    appending a code point [c] to a sequence with hash [h] gives the hash
    [(31 * h + c) mod 2^16]. *)
Theorem extendedCharHash_polynomial (unicodePoints : list Z) (c : Z) :
  extendedCharHash unicodePoints = polynomial31 unicodePoints mod 65536 ∧
  0 ≤ extendedCharHash unicodePoints < 65536 ∧
  extendedCharHash (unicodePoints ++ [c])
  = (31 * extendedCharHash unicodePoints + c) mod 65536 ∧
  (0 ≤ c < 65536 → extendedCharHash [c] = c).
Proof.
  split; [|split; [|split]].
  - unfold extendedCharHash, polynomial31.
    by rewrite <- extendedCharHash_from_polynomial.
  - apply extendedCharHash_range.
  - unfold extendedCharHash. by rewrite extendedCharHash_from_app.
  - intros Hc. unfold extendedCharHash. simpl. by apply ushort_small.
Qed.

(** The largest code point that fits. *)
Lemma extendedCharHash_polynomial_witness :
  extendedCharHash [65535] = 65535.
Proof. apply (extendedCharHash_polynomial [] 65535). lia. Defined.

(** *** Entries and lookups *)

(** X2.  In a table built by [createExtendedChar], [extendedCharMatch]
    answers true for a handle and a sequence exactly when
    [lookupExtendedChar] on that handle gives this sequence and its
    length. *)
Theorem extendedCharMatch_lookup (t : table) (hash : Z) (unicodePoints : list Z) :
  reachable t →
  extendedCharMatch t hash unicodePoints = true
  ↔ lookupExtendedChar t hash = (Some unicodePoints, seq_length unicodePoints).
Proof.
  intros Hreach. pose proof (reachable_wf t Hreach) as Hwf. split.
  - intros Hm. by apply lookupExtendedChar_stored, extendedCharMatch_true.
  - unfold lookupExtendedChar. destruct (t !! hash) as [entry|] eqn:Hl; [|done].
    destruct (Hwf _ _ Hl) as [_ (stored & -> & _)]. simpl. intros [= -> _].
    by apply extendedCharMatch_stored.
Qed.

Lemma extendedCharMatch_lookup_witness :
  extendedCharMatch (singles 3) 2 [2] = true.
Proof.
  apply (extendedCharMatch_lookup (singles 3) 2 [2]).
  - apply singles_reachable. unfold slots. lia.
  - reflexivity.
Defined.

(** X3.  In a table built by [createExtendedChar] a lookup has one of two
    results: the null pointer with length 0, for a handle that the table
    does not contain, or a sequence of [ushort] code points together with
    its length, which is between 1 and 65535, for a handle that is itself a
    [ushort]. *)
Theorem lookupExtendedChar_cases (t : table) (hash : Z) :
  reachable t →
  (contains t hash = false ∧ lookupExtendedChar t hash = (None, 0)) ∨
  (contains t hash = true ∧ 0 ≤ hash < 65536 ∧
   ∃ unicodePoints,
     lookupExtendedChar t hash = (Some unicodePoints, seq_length unicodePoints) ∧
     0 < seq_length unicodePoints < 65536 ∧
     Forall (λ c, 0 ≤ c < 65536) unicodePoints ∧
     resolved t hash = unicodePoints).
Proof.
  intros Hreach. pose proof (reachable_wf t Hreach) as Hwf.
  unfold contains, lookupExtendedChar.
  destruct (t !! hash) as [entry|] eqn:Hl; [right|by left].
  destruct (Hwf _ _ Hl) as [Hrange (stored & -> & Hlen & Hall)].
  split; [done|]. split; [done|]. exists stored. simpl.
  repeat split; try done; try lia. by apply resolved_stored.
Qed.

Lemma lookupExtendedChar_cases_witness :
  (contains (singles 3) 7 = false ∧ lookupExtendedChar (singles 3) 7 = (None, 0)) ∨
  (contains (singles 3) 7 = true ∧ 0 ≤ 7 < 65536 ∧
   ∃ unicodePoints,
     lookupExtendedChar (singles 3) 7
     = (Some unicodePoints, seq_length unicodePoints) ∧
     0 < seq_length unicodePoints < 65536 ∧
     Forall (λ c, 0 ≤ c < 65536) unicodePoints ∧
     resolved (singles 3) 7 = unicodePoints).
Proof.
  apply (lookupExtendedChar_cases (singles 3) 7).
  apply singles_reachable. unfold slots. lia.
Defined.


(** *** Growth of the table *)

(** X4.  [createExtendedChar] only ever adds to a table built by it: every
    handle that the table contained resolves as before.  When the returned
    handle was already in the table, the table is unchanged; otherwise the
    table has exactly one entry more, under the returned handle.  In both
    cases the returned handle resolves to the sequence. *)
Theorem createExtendedChar_append_only (fuel : nat) (t t' : table)
    (unicodePoints : list Z) (hash : Z) :
  reachable t → valid_seq unicodePoints →
  createExtendedChar fuel t unicodePoints = Some (hash, t') →
  (∀ h, contains t h = true →
        lookupExtendedChar t' h = lookupExtendedChar t h) ∧
  (contains t hash = true → t' = t) ∧
  (contains t hash = false →
     size t' = S (size t) ∧ ∀ h, h ≠ hash → t' !! h = t !! h) ∧
  resolved t' hash = unicodePoints ∧
  reachable t'.
Proof.
  intros Hreach Hvalid Hcreate.
  pose proof (reachable_wf t Hreach) as Hwf.
  destruct (createExtendedChar_post _ _ _ _ _ Hwf Hvalid Hcreate)
    as (Hwf' & Hsub & Hst & _).
  split; [|split; [|split; [|split]]].
  - intros h. unfold contains, lookupExtendedChar.
    destruct (t !! h) as [entry|] eqn:Hl; [|done].
    by rewrite (lookup_weaken _ _ _ _ Hl Hsub).
  - unfold contains. unfold createExtendedChar in Hcreate.
    destruct (probe fuel t _ _) as [[e|v]|] eqn:Hp; simplify_eq/=; [done|].
    by rewrite (probe_vacant _ _ _ _ _ Hp).
  - unfold contains. unfold createExtendedChar in Hcreate.
    destruct (probe fuel t _ _) as [[e|v]|] eqn:Hp; simplify_eq/=.
    + destruct (probe_sound _ _ _ _ _ Hwf (extendedCharHash_range _) Hp)
        as [Hpost _]. simpl in Hpost. by rewrite Hpost.
    + intros _. split.
      * apply map_size_insert_None. by eapply probe_vacant.
      * intros h Hne. by rewrite lookup_insert_ne.
  - by apply resolved_stored.
  - by apply (reachable_create t fuel unicodePoints hash).
Qed.

Lemma createExtendedChar_append_only_witness :
  resolved (singles 4) 3 = [3] ∧ reachable (singles 4).
Proof.
  destruct (createExtendedChar_append_only 1 (singles 3) (singles 4) [3] 3)
    as (_ & _ & _ & Hres & Hreach).
  - apply singles_reachable. unfold slots. lia.
  - split; [unfold seq_length; simpl; lia|]. repeat constructor; lia.
  - apply (singles_step 3). unfold slots. lia.
  - by split.
Defined.

Lemma reachable_probe_finds t : reachable t → probe_finds t.
Proof.
  induction 1 as [|t fuel pts h t' Hreach IH Hvalid Hcreate].
  - intros h pts. by rewrite lookup_empty.
  - pose proof (reachable_wf t Hreach) as Hwf.
    destruct (createExtendedChar_post _ _ _ _ _ Hwf Hvalid Hcreate)
      as (_ & Hsub & _ & _).
    unfold createExtendedChar in Hcreate.
    destruct (probe fuel t _ _) as [[e|v]|] eqn:Hp; simplify_eq/=; [done|].
    intros h0 p0. rewrite lookup_insert. case_decide as Hh.
    + intros Heq. subst h0.
      assert (p0 = pts) as -> by (apply buffer_of_inj; congruence).
      exists fuel.
      apply (probe_stable fuel t (<[h:=buffer_of pts]> t) _ pts (Vacant h));
        [done| |done].
      simpl. by rewrite lookup_insert_eq.
    + intros Hl. destruct (IH h0 p0 Hl) as [fuel0 Hp0]. exists fuel0.
      apply (probe_stable fuel0 t (<[h:=buffer_of pts]> t) _ p0 (Existing h0));
        [done| |done].
      simpl. by rewrite lookup_insert_ne.
Qed.

(** X5.  A table built by [createExtendedChar] stores no sequence twice:
    two handles of the table that resolve to the same sequence, with the
    same length, are the same handle. *)
Theorem lookupExtendedChar_injective (t : table) (h1 h2 : Z) :
  reachable t →
  contains t h1 = true →
  lookupExtendedChar t h1 = lookupExtendedChar t h2 →
  h1 = h2.
Proof.
  intros Hreach. pose proof (reachable_wf t Hreach) as Hwf.
  pose proof (reachable_probe_finds t Hreach) as Hfinds.
  unfold contains, lookupExtendedChar.
  destruct (t !! h1) as [e1|] eqn:Hl1; [|done]. intros _.
  destruct (t !! h2) as [e2|] eqn:Hl2; [|done].
  destruct (Hwf _ _ Hl1) as [_ (p1 & -> & _)].
  destruct (Hwf _ _ Hl2) as [_ (p2 & -> & _)]. simpl. intros [= -> _].
  destruct (Hfinds _ _ Hl1) as [f1 Hp1].
  destruct (Hfinds _ _ Hl2) as [f2 Hp2].
  apply (probe_fuel_mono f1 (f1 `max` f2)) in Hp1; [|lia].
  apply (probe_fuel_mono f2 (f1 `max` f2)) in Hp2; [|lia].
  congruence.
Qed.

Lemma lookupExtendedChar_injective_witness : (1 : Z) = 1.
Proof.
  apply (lookupExtendedChar_injective (singles 3) 1 1).
  - apply singles_reachable. unfold slots. lia.
  - reflexivity.
  - reflexivity.
Defined.

(** *** The probing sequence *)

Lemma ushort_add_l a b : ushort (ushort a + b) = ushort (a + b).
Proof. unfold ushort. apply Zplus_mod_idemp_l. Qed.

Lemma probe_path fuel t h0 pts r :
  0 ≤ h0 < 65536 →
  probe fuel t h0 pts = Some r →
  ∃ k : nat,
    (k < fuel)%nat ∧ handle_of r = ushort (h0 + Z.of_nat k) ∧
    ∀ j : nat, (j < k)%nat →
      contains t (ushort (h0 + Z.of_nat j)) = true ∧
      extendedCharMatch t (ushort (h0 + Z.of_nat j)) pts = false.
Proof.
  revert h0. induction fuel as [|fuel IH]; intros h0 Hh0; cbn [probe]; [done|].
  destruct (contains t h0) eqn:Hc.
  - destruct (extendedCharMatch t h0 pts) eqn:Hm.
    + intros [= <-]. exists 0%nat. simpl. rewrite Z.add_0_r, ushort_small by done.
      split; [lia|]. split; [done|]. intros j Hj. lia.
    + intros Hp. destruct (IH _ (ushort_range _) Hp) as (k & Hk & Hr & Hpath).
      exists (S k). split; [lia|]. split.
      * rewrite Hr, ushort_add_l. f_equal. lia.
      * intros [|j] Hj.
        -- simpl. by rewrite Z.add_0_r, ushort_small.
        -- destruct (Hpath j) as [H1 H2]; [lia|].
           rewrite ushort_add_l in H1, H2.
           by replace (h0 + Z.of_nat (S j)) with (h0 + 1 + Z.of_nat j) by lia.
  - intros [= <-]. exists 0%nat. simpl. rewrite Z.add_0_r, ushort_small by done.
    split; [lia|]. split; [done|]. intros j Hj. lia.
Qed.

(** X6.  Collisions are resolved by linear probing with wrap-around: the
    handle returned for a sequence with hash [h] is [(h + k) mod 2^16] for
    some [k], every slot [(h + j) mod 2^16] with [j < k] is taken by another
    sequence, and the returned slot was free or held the sequence itself.
    In particular the handle is the hash when the slot of the hash is
    free. *)
Theorem createExtendedChar_probes (fuel : nat) (t t' : table)
    (unicodePoints : list Z) (hash : Z) :
  createExtendedChar fuel t unicodePoints = Some (hash, t') →
  let h := extendedCharHash unicodePoints in
  (∃ k : nat,
     (k < fuel)%nat ∧ hash = (h + Z.of_nat k) mod 65536 ∧
     ∀ j : nat, (j < k)%nat →
       contains t ((h + Z.of_nat j) mod 65536) = true ∧
       extendedCharMatch t ((h + Z.of_nat j) mod 65536) unicodePoints = false) ∧
  (contains t hash = false ∨ extendedCharMatch t hash unicodePoints = true) ∧
  (contains t h = false → hash = h).
Proof.
  intros Hcreate h. unfold createExtendedChar in Hcreate. fold h in Hcreate.
  destruct (probe fuel t h unicodePoints) as [r|] eqn:Hp; [|done].
  assert (Hh : hash = handle_of r) by (destruct r; by simplify_eq/=).
  destruct (probe_path _ _ _ _ _ (extendedCharHash_range _) Hp)
    as (k & Hk & Hr & Hpath).
  split; [|split].
  - exists k. by rewrite Hh.
  - rewrite Hh. clear Hcreate Hh Hr Hpath Hk. revert Hp.
    generalize h. induction fuel as [|fuel IH]; intros h0; cbn [probe]; [done|].
    destruct (contains t h0) eqn:Hc.
    + destruct (extendedCharMatch t h0 unicodePoints) eqn:Hm.
      * intros [= <-]. by right.
      * apply IH.
    + intros [= <-]. by left.
  - intros Hfree. rewrite Hh. destruct fuel as [|fuel]; [done|].
    cbn [probe] in Hp. rewrite Hfree in Hp. by injection Hp as <-.
Qed.

(** [[65535]] and [[2114; 1]] both hash to 65535; the second one is put in
    slot 0. *)
Lemma createExtendedChar_probes_witness :
  ∃ k : nat,
    (k < 2)%nat ∧ 0 = (extendedCharHash [2114; 1] + Z.of_nat k) mod 65536 ∧
    ∀ j : nat, (j < k)%nat →
      contains {[65535 := buffer_of [65535] ]}
               ((extendedCharHash [2114; 1] + Z.of_nat j) mod 65536) = true ∧
      extendedCharMatch {[65535 := buffer_of [65535] ]}
               ((extendedCharHash [2114; 1] + Z.of_nat j) mod 65536)
               [2114; 1] = false.
Proof.
  apply (createExtendedChar_probes 2 {[65535 := buffer_of [65535] ]}
           (<[0 := buffer_of [2114; 1] ]> {[65535 := buffer_of [65535] ]})
           [2114; 1] 0).
  reflexivity.
Defined.

End ExtendedCharTableMore.

(* ===================================================================== *)
(** ** More about the HistorySearch *)
(* ===================================================================== *)

Module HistorySearchMore.
Import HistorySearch HistorySearchProofs.

(** *** From offsets to lines *)

Lemma findLineNumber_from_spec rest position lineNum prev :
  StronglySorted Z.le (prev :: rest) →
  let r := findLineNumber_from rest position lineNum in
  let k := Z.to_nat (r - lineNum) in
  0 ≤ lineNum →
  (prev ≤ position → nth k (prev :: rest) 0 ≤ position) ∧
  ∀ j, (k < j < S (length rest))%nat → position < nth j (prev :: rest) 0.
Proof.
  revert lineNum prev. induction rest as [|next rest IH];
    intros lineNum prev Hsorted r k Hline.
  - unfold k, r. cbn [findLineNumber_from length]. rewrite Z.sub_diag.
    split; [done|]. intros j Hj. lia.
  - unfold k, r. cbn [findLineNumber_from].
    apply StronglySorted_inv in Hsorted as [Hrest Hall].
    destruct (Z.leb_spec next position) as [Hle|Hgt].
    + pose proof (findLineNumber_from_bounds rest position (lineNum + 1)) as Hb.
      destruct (IH (lineNum + 1) next Hrest) as [H1 H2]; [lia|].
      replace (Z.to_nat (findLineNumber_from rest position (lineNum + 1) - lineNum))
        with (S (Z.to_nat (findLineNumber_from rest position (lineNum + 1)
                           - (lineNum + 1)))) by lia.
      split; [intros _; by apply H1|].
      intros [|j] Hj; [lia|]. apply H2. cbn [length] in Hj. lia.
    + rewrite Z.sub_diag. split; [done|].
      intros [|j] Hj; [lia|]. simpl.
      destruct j as [|j]; [done|].
      apply StronglySorted_inv in Hrest as [_ Hall'].
      cbn [length] in Hj.
      assert (Hin : nth j rest 0 ∈ rest).
      { apply list_elem_of_In, nth_In. lia. }
      rewrite Forall_forall in Hall'. specialize (Hall' _ Hin). lia.
Qed.

(** X17.  For line positions in non-decreasing order [findLineNumberInString]
    finds the owning line of an offset: an index into the list, the last one
    whose line begins at or before the offset; every later line begins after
    the offset.  An offset before the first line, and an empty list, give
    line 0. *)
Theorem findLineNumberInString_owning_line (linePositions : list Z)
    (position : Z) :
  StronglySorted Z.le linePositions →
  let line := findLineNumberInString linePositions position in
  0 ≤ line ∧
  (linePositions ≠ [] → line < Z.of_nat (length linePositions)) ∧
  (at_ linePositions 0 ≤ position → at_ linePositions line ≤ position) ∧
  (∀ j, line < j < Z.of_nat (length linePositions) →
        position < at_ linePositions j) ∧
  (position < at_ linePositions 0 → line = 0) ∧
  (linePositions = [] → line = 0).
Proof.
  intros Hsorted line.
  destruct linePositions as [|first rest].
  - unfold line, findLineNumberInString. simpl.
    repeat split; try done; intros; lia.
  - pose proof (findLineNumberInString_bounds (first :: rest) position) as Hb.
    specialize (Hb ltac:(done)). fold line in Hb.
    pose proof (findLineNumber_from_spec rest position 0 first Hsorted) as Hs.
    cbv zeta in Hs. specialize (Hs ltac:(lia)).
    change (findLineNumber_from rest position 0) with line in Hs.
    rewrite Z.sub_0_r in Hs. destruct Hs as [H1 H2].
    split; [lia|]. split; [intros _; lia|]. unfold at_.
    split; [exact H1|]. split.
    + intros j Hj. apply H2. cbn [length] in *. lia.
    + split; [|done]. change (Z.to_nat 0) with 0%nat. cbn [nth].
      intros Hlt. unfold line, findLineNumberInString. cbn [tl].
      destruct rest as [|next rest]; [done|]. cbn [findLineNumber_from].
      apply StronglySorted_inv in Hsorted as [_ Hall].
      apply Forall_cons in Hall as [Hn _].
      destruct (Z.leb_spec next position); [lia|done].
Qed.

Lemma findLineNumberInString_owning_line_witness :
  findLineNumberInString [0; 4; 8] 6 = 1.
Proof.
  destruct (findLineNumberInString_owning_line [0; 4; 8] 6)
    as (H0 & H1 & H2 & H3 & _).
  - repeat constructor; lia.
  - reflexivity.
Defined.

Lemma findLineNumber_from_mono rest p p' lineNum :
  p ≤ p' →
  findLineNumber_from rest p lineNum ≤ findLineNumber_from rest p' lineNum.
Proof.
  intros Hp. revert lineNum. induction rest as [|next rest IH]; intros lineNum;
    cbn [findLineNumber_from]; [lia|].
  destruct (Z.leb_spec next p).
  - destruct (Z.leb_spec next p'); [apply IH|lia].
  - destruct (Z.leb_spec next p'); [|lia].
    pose proof (findLineNumber_from_bounds rest p' (lineNum + 1)). lia.
Qed.

(** The two offsets that a successful pass through the loop body
    translates. *)
Lemma scanBlock_found hs sc sl ec el linesRead blockSize f :
  scanBlock hs sc sl ec el linesRead blockSize = Some f →
  let blockStartLine :=
    if m_forwards hs then int (sl + linesRead)
    else int (el - linesRead - blockSize + 1) in
  let block := writeToStream (m_emulation hs) blockStartLine
                             (int (blockStartLine + blockSize - 1)) in
  ∃ m matchStart,
    blockMatch (m_forwards hs) (m_regExp hs) (fst block) sc
               (endPosition_of (fst block) (snd block) ec)
    = (Some m, matchStart) ∧
    0 ≤ matchStart ∧
    matchStart = capturedStart m ∧
    let matchEnd := int (matchStart + capturedLength m - 1) in
    f = mkFound
          (int (matchStart
                - at_ (snd block) (findLineNumberInString (snd block) matchStart)))
          (int (findLineNumberInString (snd block) matchStart + sl + linesRead))
          (int (matchEnd
                - at_ (snd block) (findLineNumberInString (snd block) matchEnd)))
          (int (findLineNumberInString (snd block) matchEnd + sl + linesRead)).
Proof.
  unfold scanBlock. intros Hf. cbv zeta.
  destruct (writeToStream _ _ _) as [text linePositions]. cbn [fst snd].
  destruct (blockMatch _ _ _ _ _) as [m matchStart] eqn:Hblock.
  destruct (Z.gtb_spec matchStart (-1)) as [Hpos|]; [|done].
  injection Hf as <-.
  destruct m as [m|].
  - exists m, matchStart. split; [done|]. split; [lia|]. split; [|done].
    unfold blockMatch in Hblock. destruct (m_forwards hs).
    + destruct (match_from _ _ _) as [first|]; [|simplify_eq; lia].
      destruct (capturedStart first >=? _); simplify_eq; [lia|done].
    + destruct (backwardScan _ _ _ _); by simplify_eq.
  - exfalso. unfold blockMatch in Hblock.
    destruct (m_forwards hs).
    + destruct (match_from _ _ _); simplify_eq. lia.
    + destruct (backwardScan _ _ _ _); simplify_eq. lia.
Qed.

Lemma at_Forall (P : Z → Prop) (l : list Z) (i : Z) :
  Forall P l → P 0 → P (at_ l i).
Proof.
  intros Hall H0. unfold at_.
  destruct (Nat.lt_ge_cases (Z.to_nat i) (length l)) as [Hlt|Hge].
  - rewrite Forall_forall in Hall. apply Hall, list_elem_of_In.
    by apply nth_In.
  - by rewrite nth_overflow.
Qed.

(** X18.  A reported match does not end before it begins: the end line is
    not before the start line, and on the same line the end column is not
    before the start column.  This holds when the regular expression only
    yields matches of at least one character that lie inside their subject,
    and the values of the pass are [int]s as they stand: the text of the
    block has at most [INT_MAX] characters, its line positions are offsets
    between 0 and [INT_MAX], and the line numbers of the block, counted
    from [startLine + linesRead], stay in the range of [int]. *)
Theorem search_result_is_ordered (hs : HistorySearch)
    (sc sl ec el linesRead blockSize : Z) (f : Found) :
  (∀ text offset m,
     match_from (m_regExp hs) text offset = Some m →
     1 ≤ capturedLength m ∧ capturedStart m + capturedLength m ≤ size text) →
  (∀ text m,
     m ∈ globalMatch (m_regExp hs) text →
     1 ≤ capturedLength m ∧ capturedStart m + capturedLength m ≤ size text) →
  let blockStartLine :=
    if m_forwards hs then int (sl + linesRead)
    else int (el - linesRead - blockSize + 1) in
  let block := writeToStream (m_emulation hs) blockStartLine
                             (int (blockStartLine + blockSize - 1)) in
  size (fst block) ≤ INT_MAX →
  Forall (λ p, 0 ≤ p ≤ INT_MAX) (snd block) →
  int_range (sl + linesRead) →
  sl + linesRead + Z.of_nat (length (snd block)) - 1 ≤ INT_MAX →
  scanBlock hs sc sl ec el linesRead blockSize = Some f →
  m_foundStartLine f ≤ m_foundEndLine f ∧
  (m_foundStartLine f = m_foundEndLine f →
   m_foundStartColumn f ≤ m_foundEndColumn f).
Proof.
  intros Hfw Hbw blockStartLine block Hsize Hpos Hline Hlast Hf.
  destruct (scanBlock_found _ _ _ _ _ _ _ _ Hf)
    as (m & matchStart & Hblock & Hstart & Hcap & ->).
  fold blockStartLine in Hblock |- *. fold block in Hblock |- *.
  assert (Hlen : 1 ≤ capturedLength m
                 ∧ capturedStart m + capturedLength m ≤ size block.1).
  { unfold blockMatch in Hblock. destruct (m_forwards hs).
    - destruct (match_from _ _ _) as [m'|] eqn:Hm; simplify_eq. by eapply Hfw.
    - destruct (backwardScan _ _ _ _) as [m'|] eqn:Hm; simplify_eq.
      rewrite backwardScan_scanned in Hm.
      destruct (last _) as [w|] eqn:Hl; simplify_eq.
      apply last_Some_elem_of in Hl.
      apply (Hbw block.1).
      clear -Hl. induction (globalMatch _ _) as [|x rest IH];
        cbn [scanned] in Hl; [by apply elem_of_nil in Hl|].
      destruct (qualifies _ _ x); [|by apply elem_of_nil in Hl].
      apply elem_of_cons in Hl as [->|Hl]; [by left|right; by apply IH]. }
  destruct Hlen as [Hlen Hend]. rewrite <- Hcap in Hend.
  cbv zeta.
  cbn [m_foundStartLine m_foundEndLine m_foundStartColumn m_foundEndColumn].
  unfold int_range, INT_MIN, INT_MAX in *.
  assert (HmatchEnd : int (matchStart + capturedLength m - 1)
                      = matchStart + capturedLength m - 1).
  { apply int_small. unfold int_range, INT_MIN, INT_MAX. lia. }
  rewrite HmatchEnd.
  set (matchEnd := matchStart + capturedLength m - 1) in *.
  pose proof (findLineNumber_from_mono (tl block.2) matchStart matchEnd 0
                ltac:(lia)) as Hmono.
  pose proof (findLineNumber_from_bounds (tl block.2) matchStart 0) as Hs.
  pose proof (findLineNumber_from_bounds (tl block.2) matchEnd 0) as He.
  assert (Htl : Z.of_nat (length (tl block.2))
                ≤ Z.max 0 (Z.of_nat (length block.2) - 1)).
  { destruct (block.2); cbn [tl length]; lia. }
  fold (findLineNumberInString block.2 matchStart) in Hmono, Hs |- *.
  fold (findLineNumberInString block.2 matchEnd) in Hmono, He |- *.
  set (startLineNumberInString := findLineNumberInString block.2 matchStart) in *.
  set (endLineNumberInString := findLineNumberInString block.2 matchEnd) in *.
  rewrite (int_small (startLineNumberInString + sl + linesRead)),
          (int_small (endLineNumberInString + sl + linesRead))
    by (unfold int_range, INT_MIN, INT_MAX; lia).
  split; [lia|]. intros Heq.
  assert (Hsame : endLineNumberInString = startLineNumberInString) by lia.
  rewrite Hsame.
  pose proof (at_Forall (λ p, 0 ≤ p ≤ 2147483647) block.2
                startLineNumberInString Hpos ltac:(cbv beta; lia)) as Hat.
  cbv beta in Hat.
  rewrite !int_small by (unfold int_range, INT_MIN, INT_MAX; lia).
  lia.
Qed.


Lemma substring_length (n m : nat) (s : string) :
  (String.length (substring n m s) ≤ String.length s - n)%nat.
Proof.
  revert n m. induction s as [|c s IH]; intros [|n] [|m]; simpl; try lia.
  - specialize (IH 0%nat m). lia.
  - apply IH.
  - apply IH.
Qed.

(** An occurrence of a non-empty word lies inside the text. *)
Lemma index_within (from i : nat) (p text : string) :
  index from p text = Some i → (1 ≤ String.length p)%nat →
  (i + String.length p ≤ String.length text)%nat.
Proof.
  intros Hi Hp. apply index_correct1 in Hi.
  pose proof (substring_length i (String.length p) text) as Hs.
  rewrite Hi in Hs. lia.
Qed.

Lemma literal_match_from_within p text offset m :
  1 ≤ size p → literal_match_from p text offset = Some m →
  1 ≤ capturedLength m ∧ capturedStart m + capturedLength m ≤ size text.
Proof.
  unfold literal_match_from, size. intros Hp. destruct (_ || _); [done|].
  destruct (index _ _ _) as [i|] eqn:Hi; [|done]. intros [= <-].
  cbn [capturedStart capturedLength]. apply index_within in Hi; lia.
Qed.

Lemma literal_matches_within fuel p text from m :
  1 ≤ size p → m ∈ literal_matches fuel p text from →
  1 ≤ capturedLength m ∧ capturedStart m + capturedLength m ≤ size text.
Proof.
  unfold size. intros Hp. revert from.
  induction fuel as [|fuel IH]; intros from; cbn [literal_matches].
  - intros H. by apply elem_of_nil in H.
  - destruct (index from p text) as [i|] eqn:Hi;
      [|intros H; by apply elem_of_nil in H].
    intros [->|H]%elem_of_cons; [|by eapply IH].
    cbn [capturedStart capturedLength]. unfold size.
    apply index_within in Hi; lia.
Qed.

(** The first example: ["bar"] is found in line 1. *)
Lemma search_result_is_ordered_witness :
  m_foundStartLine (mkFound 0 1 2 1) ≤ m_foundEndLine (mkFound 0 1 2 1).
Proof.
  apply (search_result_is_ordered
           (mkHistorySearch (emulation_of foo_bar_foobar) (literal "bar") true 0 0)
           0 0 (-1) 3 0 4 (mkFound 0 1 2 1)).
  - intros text offset m Hm.
    by apply (literal_match_from_within "bar" text offset m).
  - intros text m Hm.
    by apply (literal_matches_within (S (String.length text)) "bar" text 0 m).
  - by vm_compute.
  - apply Forall_forall. intros p Hp. vm_compute in Hp. unfold INT_MAX.
    repeat (apply elem_of_cons in Hp as [->|Hp]; [lia|]).
    by apply elem_of_nil in Hp.
  - by vm_compute.
  - by vm_compute.
  - reflexivity.
Defined.

(** *** The block loop *)

Lemma scanBlocks_blocks fuel hs sc sl ec el linesToRead linesRead :
  int_range linesToRead → 0 ≤ linesRead ≤ Z.max 0 linesToRead →
  (Z.to_nat (linesToRead - linesRead) ≤ fuel)%nat →
  let pass (k : nat) :=
    scanBlock hs sc sl ec el (linesRead + 10000 * Z.of_nat k)
      (Z.min 10000 (linesToRead - (linesRead + 10000 * Z.of_nat k))) in
  match scanBlocks fuel hs sc sl ec el linesToRead linesRead with
  | Some (Some f) =>
      ∃ k : nat, linesRead + 10000 * Z.of_nat k < linesToRead ∧
                 pass k = Some f ∧ ∀ j : nat, (j < k)%nat → pass j = None
  | Some None =>
      ∀ k : nat, linesRead + 10000 * Z.of_nat k < linesToRead → pass k = None
  | None => False
  end.
Proof.
  intros Hr. revert linesRead.
  induction fuel as [|fuel IH]; intros linesRead Hl Hfuel pass;
    cbn [scanBlocks]; rewrite blockSize_exact by done.
  - destruct (Z.gtb_spec (Z.min 10000 (linesToRead - linesRead)) 0); [lia|].
    intros k Hk. lia.
  - destruct (Z.gtb_spec (Z.min 10000 (linesToRead - linesRead)) 0) as [Hb|Hb];
      [|intros k Hk; lia].
    assert (Hpass0 : pass 0%nat
                     = scanBlock hs sc sl ec el linesRead
                         (Z.min 10000 (linesToRead - linesRead))).
    { unfold pass. by rewrite Z.mul_0_r, Z.add_0_r. }
    destruct (scanBlock hs sc sl ec el linesRead _) as [f|] eqn:Hscan.
    + exists 0%nat. split; [lia|]. split; [done|]. intros j Hj. lia.
    + rewrite linesRead_exact by (done || lia).
      specialize (IH (linesRead + Z.min 10000 (linesToRead - linesRead))
                     ltac:(lia) ltac:(lia)).
      cbv zeta in IH.
      destruct (Z.le_gt_cases 10000 (linesToRead - linesRead)) as [Hfull|Hlast].
      * rewrite Z.min_l in IH |- * by lia.
        assert (Hshift : ∀ k : nat,
                   pass (S k)
                   = scanBlock hs sc sl ec el (linesRead + 10000 + 10000 * Z.of_nat k)
                       (Z.min 10000 (linesToRead
                                     - (linesRead + 10000 + 10000 * Z.of_nat k)))).
        { intros k. unfold pass. f_equal; [lia|]. f_equal. lia. }
        destruct (scanBlocks fuel _ _ _ _ _ _ _) as [[f|]|]; [| |done].
        -- destruct IH as (k & Hk & Hf & Hnone). exists (S k).
           split; [lia|]. split; [by rewrite Hshift|].
           intros [|j] Hj; [done|]. rewrite Hshift. apply Hnone. lia.
        -- intros [|k] Hk; [done|]. rewrite Hshift. apply IH. lia.
      * rewrite Z.min_r in IH |- * by lia.
        destruct (scanBlocks fuel _ _ _ _ _ _ _) as [[f|]|]; [| |done].
        -- destruct IH as (k & Hk & _). lia.
        -- intros [|k] Hk; [done|lia].
Qed.

(** X19.  A scan reads [linesToRead = int (endLine - startLine + 1)] lines
    in blocks of 10000 lines, the last one shorter, block [k] beginning
    [10000 * k] lines into the range, always returns, and stops at the first
    block with a match: a reported match is the match of some block all of
    whose predecessors had none, and nothing is reported only when none of
    these blocks has a match.  When [linesToRead] is not positive no block
    is read at all, as for the lines from 0 to [INT_MAX], whose number
    overflows. *)
Theorem search_range_first_block_wins (hs : HistorySearch)
    (sc sl ec el : Z) :
  let linesToRead := int (el - sl + 1) in
  let pass (k : nat) :=
    scanBlock hs sc sl ec el (10000 * Z.of_nat k)
      (Z.min 10000 (linesToRead - 10000 * Z.of_nat k)) in
  (∀ f, search_range hs sc sl ec el = Some (Some f) →
     ∃ k : nat, 10000 * Z.of_nat k < linesToRead ∧
                pass k = Some f ∧ ∀ j : nat, (j < k)%nat → pass j = None) ∧
  (search_range hs sc sl ec el = Some None →
     ∀ k : nat, 10000 * Z.of_nat k < linesToRead → pass k = None) ∧
  search_range hs sc sl ec el ≠ None ∧
  (linesToRead ≤ 0 → search_range hs sc sl ec el = Some None) ∧
  search_range hs sc 0 ec INT_MAX = Some None.
Proof.
  intros linesToRead pass.
  pose proof (int_range_int (el - sl + 1)) as Hr. fold linesToRead in Hr.
  pose proof (scanBlocks_blocks (Z.to_nat linesToRead) hs sc sl ec el
                linesToRead 0 Hr ltac:(lia) ltac:(lia)) as H.
  cbv zeta in H.
  change (scanBlocks (Z.to_nat linesToRead) hs sc sl ec el linesToRead 0)
    with (search_range hs sc sl ec el) in H.
  assert (Hempty : linesToRead ≤ 0 → search_range hs sc sl ec el = Some None)
    by apply search_range_empty.
  assert (Hmax : search_range hs sc 0 ec INT_MAX = Some None)
    by (apply search_range_empty; vm_compute; discriminate).
  destruct (search_range hs sc sl ec el) as [[f|]|]; [| |done].
  - split; [|split; [done|split; [done|split; [exact Hempty|exact Hmax]]]].
    intros f' [= <-].
    destruct H as (k & Hk & Hf & Hnone). exists k.
    split; [lia|]. split; [exact Hf|]. exact Hnone.
  - split; [done|]. split; [|split; [done|split; [done|exact Hmax]]].
    intros _ k Hk. apply H. lia.
Qed.

Lemma search_range_first_block_wins_witness :
  ∃ k : nat,
    10000 * Z.of_nat k < int (3 - 0 + 1) ∧
    scanBlock
      (mkHistorySearch (emulation_of foo_bar_foobar) (literal "bar") true 0 0)
      0 0 (-1) 3 (10000 * Z.of_nat k)
      (Z.min 10000 (int (3 - 0 + 1) - 10000 * Z.of_nat k))
    = Some (mkFound 0 1 2 1).
Proof.
  destruct (search_range_first_block_wins
              (mkHistorySearch (emulation_of foo_bar_foobar) (literal "bar")
                               true 0 0) 0 0 (-1) 3) as (H & _).
  destruct (H (mkFound 0 1 2 1)) as (k & Hk & Hf & _); [reflexivity|].
  by exists k.
Defined.

(** X20.  A scan of at most 10000 lines between two line numbers in the
    range of [int], forwards or backwards, asks the emulation for exactly
    the lines of the range, once, and reports a match by line numbers
    counted from the first line of the range: the start line is the [int]
    sum of the first line and the index of the line position that owns the
    start of the match, and the start column is the [int] distance of the
    match from that line position.  When the decoder recorded no more line
    positions than lines were asked for, the sum does not overflow and the
    start line lies in the range. *)
Theorem search_range_reports_absolute_lines (hs : HistorySearch)
    (sc sl ec el : Z) (f : Found) :
  int_range sl → int_range el → 0 < el - sl + 1 ≤ 10000 →
  search_range hs sc sl ec el = Some (Some f) →
  let block := writeToStream (m_emulation hs) sl el in
  let text := fst block in
  let linePositions := snd block in
  ∃ m matchStart,
    blockMatch (m_forwards hs) (m_regExp hs) text sc
               (endPosition_of text linePositions ec) = (Some m, matchStart) ∧
    0 ≤ matchStart ∧
    let line := findLineNumberInString linePositions matchStart in
    m_foundStartLine f = int (sl + line) ∧
    m_foundStartColumn f = int (matchStart - at_ linePositions line) ∧
    (Z.of_nat (length linePositions) ≤ el - sl + 1 →
     m_foundStartLine f = sl + line ∧ sl ≤ m_foundStartLine f ≤ el).
Proof.
  intros Hsl Hel Hn Hsearch. rewrite search_range_one_block in Hsearch by done.
  injection Hsearch as Hscan.
  destruct (scanBlock_found _ _ _ _ _ _ _ _ Hscan)
    as (m & matchStart & Hblock & Hpos & _ & ->).
  assert (Hstart : (if m_forwards hs then int (sl + 0)
                    else int (el - 0 - (el - sl + 1) + 1)) = sl).
  { destruct (m_forwards hs); rewrite <- (int_small sl Hsl) at 2; f_equal; lia. }
  rewrite Hstart in Hblock |- *.
  assert (Hend : int (sl + (el - sl + 1) - 1) = el).
  { rewrite <- (int_small el Hel) at 2. f_equal. lia. }
  rewrite Hend in Hblock |- *.
  cbv zeta. exists m, matchStart.
  cbn [m_foundStartLine m_foundStartColumn].
  split; [done|]. split; [done|]. split; [f_equal; lia|]. split; [done|].
  set (lp := (writeToStream (m_emulation hs) sl el).2).
  pose proof (findLineNumber_from_bounds (tl lp) matchStart 0) as Hb.
  unfold findLineNumberInString. intros Hlen.
  assert (Htl : Z.of_nat (length (tl lp)) ≤ Z.max 0 (Z.of_nat (length lp) - 1)).
  { destruct lp; cbn [tl length]; lia. }
  unfold int_range, INT_MIN, INT_MAX in *.
  rewrite int_small by (unfold int_range, INT_MIN, INT_MAX; lia).
  lia.
Qed.

(** At an end column of [INT_MAX] the boundary of the block overflows to a
    negative offset, below which no match starts. *)
Lemma search_range_end_column_overflow :
  endPosition_of (fst (writeToStream (emulation_of foo_bar_foobar) 0 2))
                 (snd (writeToStream (emulation_of foo_bar_foobar) 0 2)) INT_MAX
  = -2147483645 ∧
  search_range
    (mkHistorySearch (emulation_of foo_bar_foobar) (literal "foo") false
                     INT_MAX 2) 0 0 INT_MAX 2 = Some None.
Proof. by vm_compute. Qed.

Lemma search_range_reports_absolute_lines_witness :
  ∃ m matchStart,
    blockMatch false (literal "foo")
      (fst (writeToStream (emulation_of foo_bar_foobar) 0 2)) 0
      (endPosition_of (fst (writeToStream (emulation_of foo_bar_foobar) 0 2))
                      (snd (writeToStream (emulation_of foo_bar_foobar) 0 2)) 3)
    = (Some m, matchStart) ∧ 0 ≤ matchStart.
Proof.
  destruct (search_range_reports_absolute_lines
              (mkHistorySearch (emulation_of foo_bar_foobar) (literal "foo")
                               false 3 2) 0 0 3 2 (mkFound 0 0 2 0))
    as (m & matchStart & H1 & H2 & _);
    [by vm_compute | by vm_compute | lia | reflexivity |].
  by exists m, matchStart.
Defined.

End HistorySearchMore.

(* ===================================================================== *)
(** ** More about the Emulation *)
(* ===================================================================== *)

Module EmulationMore.
Import Emulation EmulationProofs.
Import HistorySearchProofs(filter_none).

(** *** What a chunk of input does *)

Lemma receiveChar_trace c e :
  dispatch_frame e (receiveChar c e) ∧
  contents (screen_at (receiveChar c e) (_currentScreen e))
  = contents (screen_at e (_currentScreen e))
    ++ option_list (dispatched_call c) ∧
  emitted (receiveChar c e) = emitted e ++ option_list (dispatched_signal c).
Proof.
  unfold receiveChar, dispatched_call, dispatched_signal, dispatch_frame.
  destruct e as [ws cur s0 s1 d t1 t2 k l].
  repeat case_match; try lia; destruct cur; simpl;
    rewrite ?app_nil_r; repeat split; try done; by intros [].
Qed.


Lemma dispatch_frame_refl e : dispatch_frame e e.
Proof. by repeat split. Qed.

Lemma dispatch_frame_trans e1 e2 e3 :
  dispatch_frame e1 e2 → dispatch_frame e2 e3 → dispatch_frame e1 e3.
Proof.
  unfold dispatch_frame.
  intros (W1 & C1 & D1 & T1 & U1 & K1 & O1 & L1 & M1)
         (W2 & C2 & D2 & T2 & U2 & K2 & O2 & L2 & M2).
  rewrite C1 in *.
  repeat split; try congruence.
  intros p Hp. rewrite O2 by done. by apply O1.
Qed.

Lemma receiveChars_trace cs e :
  let e' := fold_left (λ e c, receiveChar c e) cs e in
  dispatch_frame e e' ∧
  contents (screen_at e' (_currentScreen e))
  = contents (screen_at e (_currentScreen e)) ++ omap dispatched_call cs ∧
  emitted e' = emitted e ++ omap dispatched_signal cs.
Proof.
  revert e. induction cs as [|c cs IH]; intros e; cbn [fold_left].
  - simpl. rewrite !app_nil_r. split; [apply dispatch_frame_refl|done].
  - destruct (receiveChar_trace c e) as (F1 & C1 & E1).
    destruct (IH (receiveChar c e)) as (F2 & C2 & E2).
    assert (Hcur : _currentScreen (receiveChar c e) = _currentScreen e)
      by apply F1.
    rewrite Hcur in C2. cbv zeta. split; [by eapply dispatch_frame_trans|].
    rewrite C2, C1, E2, E1, <- !app_assoc. cbn [omap list_omap].
    split; f_equal.
    + by destruct (dispatched_call c).
    + by destruct (dispatched_signal c).
Qed.

(** The z-modem loop only emits. *)
Lemma zmodem_loop_emits text indices e :
  fold_left (zmodem_step text) indices e
  = emit_all (replicate (length (filter (λ i, marker_at text i = true) indices))
                        zmodemDetected) e.
Proof.
  revert e. induction indices as [|i indices IH]; intros e; cbn [fold_left];
    [done|].
  rewrite IH, filter_cons. unfold zmodem_step at 1, marker_at at 2.
  rewrite strncmp_B00. fold (marker_at text i).
  assert (Hm : marker_at text i
               = (nth i text 0 =? 24)
                 && (Z.of_nat (length text) - Z.of_nat i - 1 >? 3)
                 && bool_decide (take 3 (drop (i + 1) text) = B00)) by done.
  destruct (nth i text 0 =? 24); cbn [andb] in Hm |- *.
  - rewrite <- Hm. destruct (marker_at text i); [|done].
    by rewrite decide_True.
  - rewrite Hm. by rewrite decide_False.
Qed.

Lemma emit_all_emitted ss e : emitted (emit_all ss e) = emitted e ++ ss.
Proof.
  revert e. induction ss as [|s ss IH]; intros e; cbn [emit_all fold_left].
  - by rewrite app_nil_r.
  - unfold emit_all in IH. rewrite IH. simpl. by rewrite <- app_assoc.
Qed.

Lemma emit_all_frame ss e :
  dispatch_frame e (emit_all ss e) ∧
  screen_at (emit_all ss e) (_currentScreen e) = screen_at e (_currentScreen e).
Proof.
  revert e. induction ss as [|s ss IH]; intros e; cbn [emit_all fold_left].
  - split; [apply dispatch_frame_refl|done].
  - unfold emit_all in IH. destruct (IH (emit s e)) as [F S]. split.
    + eapply dispatch_frame_trans; [|exact F]. by repeat split.
    + exact S.
Qed.

(** The complete effect of [receiveData] on the signal log, on the current
    screen and on everything else. *)
Lemma receiveData_effect text e :
  let e' := receiveData text e in
  emitted e'
  = emitted e ++ [stateSet NOTIFYACTIVITY]
    ++ omap dispatched_signal (decoded e text)
    ++ replicate (match _decoder e with
                  | Some _ => count_markers text
                  | None => 0%nat
                  end) zmodemDetected ∧
  contents (screen_at e' (_currentScreen e))
  = contents (screen_at e (_currentScreen e))
    ++ omap dispatched_call (decoded e text) ∧
  _windows e' = _windows e ∧
  _currentScreen e' = _currentScreen e ∧
  clock e' = clock e ∧
  (∀ p, p ≠ _currentScreen e → screen_at e' p = screen_at e p) ∧
  getLines (screen_at e' (_currentScreen e))
  = getLines (screen_at e (_currentScreen e)) ∧
  getColumns (screen_at e' (_currentScreen e))
  = getColumns (screen_at e (_currentScreen e)) ∧
  (_decoder e = None ↔ _decoder e' = None).
Proof.
  unfold receiveData, decoded.
  set (e1 := bufferedUpdate (emit (stateSet NOTIFYACTIVITY) e)).
  assert (H1 : activity_frame e e1).
  { unfold e1, bufferedUpdate, activity_frame.
    destruct e as [ws cur s0 s1 d t1 [a2 ss2 d2] k l]. simpl.
    destruct a2; simpl; by repeat split. }
  destruct H1 as (W1 & C1 & D1 & K1 & S1 & E1).
  rewrite D1. destruct (_decoder e) as [d|] eqn:Hd.
  - destruct (QStringDecoder_decode d text) as [cs d'] eqn:Hdec. cbn [fst].
    rewrite zmodem_loop_emits. fold (count_markers text).
    set (e2 := set_decoder (Some d') e1).
    destruct (receiveChars_trace cs e2) as (F3 & C3 & E3).
    set (e3 := fold_left (λ e c, receiveChar c e) cs e2) in *.
    destruct (emit_all_frame (replicate (count_markers text) zmodemDetected) e3)
      as (F4 & S4).
    pose proof (dispatch_frame_trans _ _ _ F3 F4) as F.
    destruct F as (W & C & D & T & U & K & O & L & M).
    assert (C3cur : _currentScreen e3 = _currentScreen e) by (rewrite <- C1; apply F3).
    rewrite C3cur in S4.
    change (_currentScreen e2) with (_currentScreen e1) in *.
    change (screen_at e2) with (screen_at e1) in *.
    change (_windows e2) with (_windows e1) in *.
    change (clock e2) with (clock e1) in *.
    change (emitted e2) with (emitted e1) in *.
    rewrite C1 in *. rewrite S1 in *.
    rewrite emit_all_emitted, E3, E1, <- !app_assoc. cbv zeta.
    split; [done|]. split; [by rewrite S4, C3|].
    split; [congruence|]. split; [congruence|]. split; [congruence|].
    split; [intros p Hp; by rewrite O|].
    split; [done|]. split; [done|].
    rewrite D. simpl. split; done.
  - cbn [omap list_omap replicate]. rewrite app_nil_r. cbv zeta. rewrite S1.
    split; [done|]. split; [by rewrite app_nil_r|].
    split; [done|]. split; [done|]. split; [done|].
    split; [done|]. split; [done|]. split; [done|].
    by rewrite D1.
Qed.


(** X7.  [receiveData] dispatches the decoded code points in order: the
    contents of the current screen grow by the calls that the code points
    stand for (none for a bell).  The other screen is not touched, the size
    of the current screen stays, and so do the choice of the current screen
    and the windows.  Without a decoder no code point is dispatched and no
    screen changes. *)
Theorem receiveData_dispatches (text : list Z) (e : Emulation) :
  let e' := receiveData text e in
  contents (screen_at e' (_currentScreen e))
  = contents (screen_at e (_currentScreen e))
    ++ omap dispatched_call (decoded e text) ∧
  (_decoder e = None → screen_at e' = screen_at e) ∧
  _windows e' = _windows e ∧
  _currentScreen e' = _currentScreen e ∧
  (∀ p, p ≠ _currentScreen e → screen_at e' p = screen_at e p) ∧
  getLines (screen_at e' (_currentScreen e))
  = getLines (screen_at e (_currentScreen e)) ∧
  getColumns (screen_at e' (_currentScreen e))
  = getColumns (screen_at e (_currentScreen e)).
Proof.
  intros e'.
  destruct (receiveData_effect text e)
    as (_ & Hc & Hw & Hcur & _ & Ho & Hl & Hm & _).
  fold e' in Hc, Hw, Hcur, Ho, Hl, Hm.
  split; [done|]. split; [|done].
  intros Hnone. unfold e', receiveData.
  assert (Hb : _decoder (bufferedUpdate (emit (stateSet NOTIFYACTIVITY) e)) = None).
  { by rewrite bufferedUpdate_decoder. }
  rewrite Hb. unfold bufferedUpdate. simpl. by destruct (negb _).
Qed.

Lemma receiveData_dispatches_witness :
  screen_at (receiveData [65; 7; 8]
               (set_decoder None (Emulation_new latin1)))
  = screen_at (set_decoder None (Emulation_new latin1)).
Proof.
  apply (receiveData_dispatches [65; 7; 8]
           (set_decoder None (Emulation_new latin1))).
  reflexivity.
Defined.

Lemma dispatched_signal_bell (cs : list Z) s :
  s ∈ omap dispatched_signal cs → s = stateSet NOTIFYBELL.
Proof.
  intros Hs. apply list_elem_of_omap in Hs as (c & _ & Hc).
  unfold dispatched_signal in Hc. by destruct (_ =? 7); simplify_eq.
Qed.

(** X8.  The signals of one [receiveData] call, in order: first
    [stateSet(NOTIFYACTIVITY)], then one [stateSet(NOTIFYBELL)] for every
    decoded code point whose low byte is 7, then the [zmodemDetected]
    signals.  The call itself never emits [outputChanged] or
    [imageSizeChanged]. *)
Theorem receiveData_signals (text : list Z) (e : Emulation) :
  let bells := omap dispatched_signal (decoded e text) in
  let markers := match _decoder e with
                 | Some _ => count_markers text
                 | None => 0%nat
                 end in
  emitted (receiveData text e)
  = emitted e ++ [stateSet NOTIFYACTIVITY] ++ bells
    ++ replicate markers zmodemDetected ∧
  Forall (λ s, s = stateSet NOTIFYBELL) bells ∧
  length bells
  = length (filter (λ c, Z.land c 255 = 7) (decoded e text)) ∧
  count_signal outputChanged (emitted (receiveData text e))
  = count_signal outputChanged (emitted e) ∧
  ∀ lines columns,
    count_signal (imageSizeChanged lines columns) (emitted (receiveData text e))
    = count_signal (imageSizeChanged lines columns) (emitted e).
Proof.
  intros bells markers.
  destruct (receiveData_effect text e) as (He & _). fold bells markers in He.
  assert (Hbells : Forall (λ s, s = stateSet NOTIFYBELL) bells).
  { apply Forall_forall. intros s. apply dispatched_signal_bell. }
  assert (Hcount : ∀ s, s ≠ stateSet NOTIFYACTIVITY → s ≠ stateSet NOTIFYBELL →
                        s ≠ zmodemDetected →
             count_signal s (emitted (receiveData text e))
             = count_signal s (emitted e)).
  { intros s H1 H2 H3. rewrite He. unfold count_signal.
    rewrite !filter_app, !length_app.
    rewrite (filter_none _ [_]), (filter_none _ bells),
      (filter_none _ (replicate _ _)); [simpl; lia| | |].
    - apply Forall_forall. intros x Hx. apply elem_of_replicate in Hx as [-> _].
      congruence.
    - eapply Forall_impl; [exact Hbells|]. simpl. congruence.
    - repeat constructor. congruence. }
  split; [done|]. split; [done|]. split.
  - unfold bells. generalize (decoded e text). intros cs.
    induction cs as [|c cs IH]; [done|].
    rewrite filter_cons. cbn [omap list_omap]. unfold dispatched_signal at 1.
    destruct (Z.eqb_spec (Z.land c 255) 7).
    + rewrite decide_True by done. simpl. by rewrite IH.
    + by rewrite decide_False.
  - split; [by apply Hcount|]. intros lines columns. by apply Hcount.
Qed.


(** *** The z-modem indicator across chunks *)

Lemma filter_length_mono {A} (P Q : A → Prop)
    `{∀ x, Decision (P x)} `{∀ x, Decision (Q x)} (l : list A) :
  (∀ x, x ∈ l → P x → Q x) →
  (length (filter P l) ≤ length (filter Q l))%nat.
Proof.
  induction l as [|x l IH]; intros Himp; [done|].
  rewrite !filter_cons.
  assert (IH' : (length (filter P l) ≤ length (filter Q l))%nat).
  { apply IH. intros y Hy. apply Himp. by right. }
  destruct (decide (P x)) as [HP|HP].
  - rewrite decide_True by (apply Himp; [by left|done]). simpl. lia.
  - destruct (decide (Q x)); simpl; lia.
Qed.

Lemma filter_length_fmap {A B} (f : A → B) (P : B → Prop)
    `{∀ x, Decision (P x)} (l : list A) :
  length (filter P (f <$> l)) = length (filter (λ x, P (f x)) l).
Proof.
  induction l as [|x l IH]; [done|].
  rewrite fmap_cons, !filter_cons. destruct (decide (P (f x))); simpl; lia.
Qed.

Lemma marker_at_app_l a b i :
  marker_at a i = true → marker_at (a ++ b) i = true.
Proof.
  unfold marker_at. rewrite !andb_true_iff, !bool_decide_eq_true.
  intros [[H1 H2] H3]. apply Z.gtb_lt in H2.
  assert (Hi : (i + 4 < length a)%nat) by lia.
  repeat split.
  - rewrite app_nth1 by lia. done.
  - apply Z.gtb_lt. rewrite length_app. lia.
  - rewrite drop_app_le by lia. rewrite take_app_le; [done|].
    rewrite length_drop. lia.
Qed.

Lemma marker_at_app_r a b i :
  marker_at (a ++ b) (length a + i) = marker_at b i.
Proof.
  unfold marker_at. rewrite app_nth2_plus, length_app.
  replace (length a + i + 1)%nat with (length a + (i + 1))%nat by lia.
  rewrite drop_app_add. f_equal. f_equal.
  replace (Z.of_nat (length a + length b) - Z.of_nat (length a + i) - 1)
    with (Z.of_nat (length b) - Z.of_nat i - 1) by lia.
  done.
Qed.

Lemma count_markers_app a b :
  (count_markers a + count_markers b ≤ count_markers (a ++ b))%nat.
Proof.
  unfold count_markers. rewrite length_app, seq_app, filter_app, length_app.
  assert (Hseq : seq (0 + length a) (length b)
                 = Nat.add (length a) <$> seq 0 (length b)).
  { rewrite fmap_add_seq. f_equal. lia. }
  rewrite Hseq, filter_length_fmap.
  apply Nat.add_le_mono.
  - apply filter_length_mono. intros i _. apply marker_at_app_l.
  - apply filter_length_mono. intros i _. by rewrite marker_at_app_r.
Qed.

Lemma count_markers_short text :
  (length text ≤ 4)%nat → count_markers text = 0%nat.
Proof.
  intros Hlen. unfold count_markers. rewrite filter_none; [done|].
  apply Forall_forall. intros i _. unfold marker_at.
  destruct (Z.gtb_spec (Z.of_nat (length text) - Z.of_nat i - 1) 3); [lia|].
  by rewrite andb_false_r.
Qed.

Lemma count_signal_app s l1 l2 :
  count_signal s (l1 ++ l2) = (count_signal s l1 + count_signal s l2)%nat.
Proof. unfold count_signal. by rewrite filter_app, length_app. Qed.

Lemma count_signal_replicate s n :
  count_signal s (replicate n s) = n.
Proof.
  unfold count_signal. induction n as [|n IH]; [done|].
  cbn [replicate]. rewrite filter_cons, decide_True by done. simpl. by rewrite IH.
Qed.

(** The number of [zmodemDetected] signals that one call adds. *)
Lemma receiveData_zmodem_added text e :
  count_signal zmodemDetected (emitted (receiveData text e))
  = (count_signal zmodemDetected (emitted e)
     + match _decoder e with
       | Some _ => count_markers text
       | None => 0
       end)%nat.
Proof.
  destruct (receiveData_effect text e) as (He & _). rewrite He.
  rewrite !count_signal_app, count_signal_replicate.
  unfold count_signal at 2 3.
  rewrite (filter_none _ [_]), (filter_none _ (omap _ _)); [simpl; lia| |].
  - apply Forall_forall. intros s Hs.
    by rewrite (dispatched_signal_bell _ _ Hs).
  - by repeat constructor.
Qed.

(** X9.  The scan for the z-modem indicator starts afresh with every call
    and looks only at the bytes of that call.  So two calls with the chunks
    [a] and [b] emit [zmodemDetected] as often as [a] and [b] have markers
    of their own, which is never more often, and can be less often, than
    one call with the chunk [a ++ b]: a marker, or the byte that has to
    follow it, cut in two by the chunk boundary is not seen. *)
Theorem receiveData_zmodem_split (a b : list Z) (e : Emulation) :
  count_signal zmodemDetected (emitted (receiveData b (receiveData a e)))
  = (count_signal zmodemDetected (emitted e)
     + match _decoder e with
       | Some _ => count_markers a + count_markers b
       | None => 0
       end)%nat ∧
  (count_markers a + count_markers b ≤ count_markers (a ++ b))%nat ∧
  (count_markers [24; 66]%Z + count_markers [48; 48; 13]%Z
   < count_markers ([24; 66] ++ [48; 48; 13])%Z)%nat.
Proof.
  split; [|split; [apply count_markers_app|by vm_compute]].
  rewrite !receiveData_zmodem_added.
  destruct (receiveData_effect a e) as (_ & _ & _ & _ & _ & _ & _ & _ & Hd).
  destruct (_decoder e) as [d|] eqn:Hde.
  - destruct (_decoder (receiveData a e)) as [d'|] eqn:Hd'; [lia|].
    destruct Hd as [_ Hd]. by specialize (Hd eq_refl).
  - destruct Hd as [Hd _]. rewrite Hd by done. lia.
Qed.

(** X10.  A chunk of fewer than five bytes never raises [zmodemDetected]:
    the test asks for more than three bytes after the 0x18. *)
Theorem receiveData_zmodem_short (text : list Z) (e : Emulation) :
  (length text ≤ 4)%nat →
  count_signal zmodemDetected (emitted (receiveData text e))
  = count_signal zmodemDetected (emitted e).
Proof.
  intros Hlen. rewrite receiveData_zmodem_added, count_markers_short by done.
  destruct (_decoder e); lia.
Qed.

Lemma receiveData_zmodem_short_witness :
  count_signal zmodemDetected
    (emitted (receiveData [24; 66; 48; 48] (Emulation_new latin1)))
  = count_signal zmodemDetected (emitted (Emulation_new latin1)).
Proof.
  apply (receiveData_zmodem_short [24; 66; 48; 48] (Emulation_new latin1)).
  simpl. lia.
Defined.


(** *** Resizing and switching, repeated *)

Lemma setImageSize_sizes lines columns e :
  1 ≤ lines → 1 ≤ columns →
  getLines (_screen0 (setImageSize lines columns e)) = lines ∧
  getColumns (_screen0 (setImageSize lines columns e)) = columns ∧
  getLines (_screen1 (setImageSize lines columns e)) = lines ∧
  getColumns (_screen1 (setImageSize lines columns e)) = columns ∧
  _currentScreen (setImageSize lines columns e) = _currentScreen e ∧
  _windows (setImageSize lines columns e) = _windows e.
Proof.
  intros Hl Hc. unfold setImageSize.
  apply Z.ltb_ge in Hl, Hc. rewrite Hl, Hc. cbn [orb].
  destruct e as [ws cur [l0 c0 sc0 dr0 k0] [l1 c1 sc1 dr1 k1] dc
                    t1 [a2 ss2 d2] k l].
  cbn [_screen0 _screen1 getLines getColumns].
  destruct (bool_decide_reflect ((columns, lines) = (c0, l0)))
    as [[= <- <-]|H0]; cbn [andb].
  - destruct (bool_decide_reflect ((columns, lines) = (c1, l1)))
      as [[= <- <-]|H1]; [done|].
    unfold bufferedUpdate. simpl. by destruct a2.
  - unfold bufferedUpdate. simpl. by destruct a2.
Qed.

Lemma setImageSize_noop lines columns e :
  getLines (_screen0 e) = lines → getColumns (_screen0 e) = columns →
  getLines (_screen1 e) = lines → getColumns (_screen1 e) = columns →
  setImageSize lines columns e = e.
Proof.
  intros H1 H2 H3 H4. unfold setImageSize. destruct (_ || _); [done|].
  rewrite H1, H2, H3, H4. rewrite bool_decide_eq_true_2; done.
Qed.

(** X11.  After [setImageSize] with dimensions of at least 1 both screens
    have the requested size, whatever their sizes were, and [imageSize()]
    returns it; a second call with the same arguments then changes nothing,
    so a repeated resize request emits [imageSizeChanged] once at most.
    With any arguments at all, the second of two equal calls changes
    nothing. *)
Theorem setImageSize_idempotent (lines columns : Z) (e : Emulation) :
  setImageSize lines columns (setImageSize lines columns e)
  = setImageSize lines columns e ∧
  (1 ≤ lines → 1 ≤ columns →
   imageSize (setImageSize lines columns e) = (columns, lines) ∧
   getLines (_screen0 (setImageSize lines columns e)) = lines ∧
   getColumns (_screen0 (setImageSize lines columns e)) = columns ∧
   getLines (_screen1 (setImageSize lines columns e)) = lines ∧
   getColumns (_screen1 (setImageSize lines columns e)) = columns).
Proof.
  split.
  - destruct (Z.ltb_spec lines 1) as [Hl|Hl].
    { unfold setImageSize. apply Z.ltb_lt in Hl. by rewrite Hl. }
    destruct (Z.ltb_spec columns 1) as [Hc|Hc].
    { unfold setImageSize. apply Z.ltb_lt in Hc. by rewrite Hc, !orb_true_r. }
    destruct (setImageSize_sizes lines columns e Hl Hc) as (? & ? & ? & ? & _).
    by apply setImageSize_noop.
  - intros Hl Hc.
    destruct (setImageSize_sizes lines columns e Hl Hc)
      as (H1 & H2 & H3 & H4 & _).
    split; [|done]. unfold imageSize, screen_at.
    destruct (_currentScreen _); congruence.
Qed.

Lemma setImageSize_idempotent_witness :
  imageSize (setImageSize 24 100 (Emulation_new latin1)) = (100, 24).
Proof.
  apply (setImageSize_idempotent 24 100 (Emulation_new latin1)); lia.
Defined.

(** X12.  [setScreen] depends on the parity of its argument only, and
    calling it again with an argument of the same parity changes nothing:
    no window is told to rebind a second time. *)
Theorem setScreen_idempotent (n m : Z) (e : Emulation) :
  Z.even n = Z.even m →
  setScreen n e = setScreen m e ∧
  setScreen m (setScreen n e) = setScreen n e.
Proof.
  intros Hnm. unfold setScreen. rewrite !screen_cell_land, Hnm.
  destruct (Z.even m), e as [ws [] s0 s1 d t1 t2 k l]; simpl; done.
Qed.

Lemma setScreen_idempotent_witness :
  setScreen 1 (Emulation_new latin1) = setScreen (-3) (Emulation_new latin1) ∧
  setScreen (-3) (setScreen 1 (Emulation_new latin1))
  = setScreen 1 (Emulation_new latin1).
Proof.
  apply (setScreen_idempotent 1 (-3) (Emulation_new latin1)). reflexivity.
Defined.


(** *** States that calls lead to *)

Lemma run_invariant (P : Emulation → Prop) :
  (∀ c e, P e → P (perform c e)) →
  ∀ calls e, P e → P (run calls e).
Proof.
  intros Hstep calls. unfold run.
  induction calls as [|c calls IH]; intros e He; cbn [fold_left]; [done|].
  apply IH. by apply Hstep.
Qed.

Lemma dispatch_frame_sizes e e' p :
  dispatch_frame e e' →
  getLines (screen_at e' p) = getLines (screen_at e p) ∧
  getColumns (screen_at e' p) = getColumns (screen_at e p).
Proof.
  intros (_ & _ & _ & _ & _ & _ & O & L & M).
  destruct (decide (p = _currentScreen e)) as [->|Hp]; [done|].
  by rewrite O.
Qed.

Lemma showBulk_frame e :
  _windows (showBulk e) = _windows e ∧
  _currentScreen (showBulk e) = _currentScreen e ∧
  (∀ p, getLines (screen_at (showBulk e) p) = getLines (screen_at e p) ∧
        getColumns (screen_at (showBulk e) p) = getColumns (screen_at e p)) ∧
  isActive (_bulkTimer1 (showBulk e)) = false ∧
  isActive (_bulkTimer2 (showBulk e)) = false ∧
  emitted (showBulk e) = emitted e ++ [outputChanged].
Proof.
  destruct e as [ws cur s0 s1 d t1 t2 k l].
  unfold showBulk.
  destruct cur; simpl; (split; [done|]); (split; [done|]);
    (split; [by intros []|done]).
Qed.

Lemma setImageSize_timers lines columns e :
  clock (setImageSize lines columns e) = clock e ∧
  ((_bulkTimer1 (setImageSize lines columns e) = _bulkTimer1 e ∧
    _bulkTimer2 (setImageSize lines columns e) = _bulkTimer2 e) ∨
   (_bulkTimer1 (setImageSize lines columns e) = _bulkTimer1 (bufferedUpdate e) ∧
    _bulkTimer2 (setImageSize lines columns e) = _bulkTimer2 (bufferedUpdate e))).
Proof.
  unfold setImageSize. destruct (_ || _); [by split; [|left]|].
  destruct (_ && _); [by split; [|left]|].
  unfold bufferedUpdate. simpl.
  destruct (isActive (_bulkTimer2 e)); simpl; split; try done; by right.
Qed.

Lemma setImageSize_frame lines columns e :
  _currentScreen (setImageSize lines columns e) = _currentScreen e ∧
  _windows (setImageSize lines columns e) = _windows e.
Proof.
  unfold setImageSize. destruct (_ || _); [done|]. destruct (_ && _); [done|].
  unfold bufferedUpdate. simpl. by destruct (negb _).
Qed.

Lemma windows_bound_step c e : windows_bound e → windows_bound (perform c e).
Proof.
  unfold windows_bound. intros Hb.
  destruct c as [|n|c|text|lines columns| | | |msec]; cbn [perform].
  - simpl. apply Forall_app. split; [done|]. by repeat constructor.
  - unfold setScreen. rewrite screen_cell_land.
    set (p := if Z.even n then Primary else Alternate). cbn [set_currentScreen
      _currentScreen _windows]. case_decide as Hne; simpl.
    + apply Forall_forall. intros w Hw.
      apply list_elem_of_fmap in Hw as (w0 & -> & _). done.
    + by rewrite Hne.
  - destruct (receiveChar_trace c e) as ((W & C & _) & _). by rewrite W, C.
  - destruct (receiveData_effect text e) as (_ & _ & W & C & _). by rewrite W, C.
  - destruct (setImageSize_frame lines columns e) as [C W]. by rewrite W, C.
  - destruct (bufferedUpdate_screens e) as (_ & _ & C & W & _). by rewrite W, C.
  - destruct (showBulk_frame e) as (W & C & _). by rewrite W, C.
  - unfold elapse. destruct (next_timeout e); [|done].
    destruct (showBulk_frame (set_clock (clock e `max` z) e)) as (W & C & _).
    by rewrite W, C.
  - done.
Qed.

Lemma sizes_agree_step c e : sizes_agree e → sizes_agree (perform c e).
Proof.
  unfold sizes_agree. intros (HL & HC & H1 & H2).
  assert (Hframe : ∀ e', (∀ p, getLines (screen_at e' p) = getLines (screen_at e p) ∧
                               getColumns (screen_at e' p) = getColumns (screen_at e p)) →
             getLines (_screen0 e') = getLines (_screen1 e') ∧
             getColumns (_screen0 e') = getColumns (_screen1 e') ∧
             1 ≤ getLines (_screen0 e') ∧ 1 ≤ getColumns (_screen0 e')).
  { intros e' Hs. destruct (Hs Primary) as [L0 C0], (Hs Alternate) as [L1 C1].
    simpl in *. rewrite L0, L1, C0, C1. done. }
  destruct c as [|n|c|text|lines columns| | | |msec]; cbn [perform].
  - done.
  - unfold setScreen. rewrite screen_cell_land.
    destruct (Z.even n), e as [ws [] s0 s1 d t1 t2 k l]; simpl in *; done.
  - apply Hframe. intros p. apply dispatch_frame_sizes, receiveChar_trace.
  - apply Hframe. intros p.
    destruct (receiveData_effect text e)
      as (_ & _ & _ & _ & _ & O & L & M & _).
    destruct (decide (p = _currentScreen e)) as [->|Hp]; [done|]. by rewrite O.
  - destruct (Z.ltb_spec lines 1) as [Hl|Hl].
    { unfold setImageSize. apply Z.ltb_lt in Hl. by rewrite Hl. }
    destruct (Z.ltb_spec columns 1) as [Hc|Hc].
    { unfold setImageSize. apply Z.ltb_lt in Hc. by rewrite Hc, !orb_true_r. }
    destruct (setImageSize_sizes lines columns e Hl Hc) as (-> & -> & -> & -> & _).
    done.
  - destruct (bufferedUpdate_screens e) as (-> & -> & _). done.
  - apply Hframe. apply showBulk_frame.
  - unfold elapse. destruct (next_timeout e); [|done].
    apply Hframe. intros p.
    by destruct (showBulk_frame (set_clock (clock e `max` z) e)) as (_ & _ & S & _).
  - done.
Qed.

Lemma timers_paired_update e e' :
  timers_paired e →
  clock e' = clock e →
  _bulkTimer1 e' = _bulkTimer1 (bufferedUpdate e) →
  _bulkTimer2 e' = _bulkTimer2 (bufferedUpdate e) →
  timers_paired e'.
Proof.
  unfold timers_paired. intros [Hact Hd] K T1 T2.
  destruct (bufferedUpdate_timer1 e) as (A1 & _ & D1).
  rewrite K, T1, T2, A1, D1, bufferedUpdate_timer2.
  unfold BULK_TIMEOUT1, BULK_TIMEOUT2 in *.
  destruct (isActive (_bulkTimer2 e)) eqn:A2.
  - rewrite A2. split; [done|]. intros _. destruct (Hd Hact). lia.
  - simpl. split; [done|]. intros _. lia.
Qed.

Lemma timers_paired_idle e :
  isActive (_bulkTimer1 e) = false → isActive (_bulkTimer2 e) = false →
  timers_paired e.
Proof. unfold timers_paired. intros -> ->. done. Qed.

Lemma timers_paired_step c e : timers_paired e → timers_paired (perform c e).
Proof.
  intros Hp.
  destruct c as [|n|c|text|lines columns| | | |msec]; cbn [perform].
  - done.
  - unfold setScreen. rewrite screen_cell_land.
    destruct (Z.even n), e as [ws [] s0 s1 d t1 t2 k l]; simpl in *; done.
  - destruct (receiveChar_trace c e) as ((_ & _ & _ & T1 & T2 & K & _) & _).
    unfold timers_paired. by rewrite T1, T2, K.
  - destruct (receiveData_timers text e) as [T1 T2].
    destruct (receiveData_effect text e) as (_ & _ & _ & _ & K & _).
    by apply (timers_paired_update e).
  - destruct (setImageSize_timers lines columns e) as (K & [[T1 T2]|[T1 T2]]).
    + unfold timers_paired. by rewrite T1, T2, K.
    + by apply (timers_paired_update e).
  - apply (timers_paired_update e); [done| |done|done].
    apply bufferedUpdate_screens.
  - apply timers_paired_idle; apply showBulk_frame.
  - unfold elapse. destruct (next_timeout e); [|done].
    apply timers_paired_idle; apply showBulk_frame.
  - unfold timers_paired in *. destruct Hp as [Hact Hd]. simpl.
    split; [done|]. intros H. destruct (Hd H). lia.
Qed.

Lemma run_windows_length calls e0 :
  length (_windows (run calls e0))
  = (length (filter (λ c, c = call_createWindow) calls)
     + length (_windows e0))%nat.
Proof.
  revert e0. unfold run.
  induction calls as [|c calls IH]; intros e0; cbn [fold_left]; [done|].
  rewrite IH, filter_cons.
  destruct c as [|n|c|text|lines columns| | | |msec]; cbn [perform].
  - rewrite decide_True by done. simpl. rewrite length_app. simpl. lia.
  - rewrite decide_False by done. f_equal.
    unfold setScreen. rewrite screen_cell_land. simpl.
    case_decide; simpl; [by rewrite length_fmap|done].
  - rewrite decide_False by done.
    destruct (receiveChar_trace c e0) as ((W & _) & _). by rewrite W.
  - rewrite decide_False by done.
    destruct (receiveData_effect text e0) as (_ & _ & W & _). by rewrite W.
  - rewrite decide_False by done.
    destruct (setImageSize_frame lines columns e0) as [_ W]. by rewrite W.
  - rewrite decide_False by done.
    destruct (bufferedUpdate_screens e0) as (_ & _ & _ & W & _). by rewrite W.
  - rewrite decide_False by done.
    destruct (showBulk_frame e0) as (W & _). by rewrite W.
  - rewrite decide_False by done. unfold elapse.
    destruct (next_timeout e0); [|done].
    destruct (showBulk_frame (set_clock (clock e0 `max` z) e0)) as (W & _).
    by rewrite W.
  - by rewrite decide_False.
Qed.

(** X13.  Whatever calls are made on a new emulation, every window created
    by [createWindow] looks at the screen that is current; and there are as
    many windows as there were [createWindow] calls. *)
Theorem windows_follow_current_screen (utf8 : QStringDecoder)
    (calls : list Call) :
  let e := run calls (Emulation_new utf8) in
  Forall (λ w, window_screen w = _currentScreen e) (_windows e) ∧
  length (_windows e)
  = length (filter (λ c, c = call_createWindow) calls).
Proof.
  intros e. split.
  - apply (run_invariant windows_bound); [apply windows_bound_step|].
    constructor.
  - unfold e. rewrite run_windows_length. simpl. lia.
Qed.

(** X14.  Whatever calls are made on a new emulation, its two screens have
    the same number of lines and of columns, at least one of each; so
    [imageSize()] does not change when [setScreen] switches screens. *)
Theorem screens_have_one_size (utf8 : QStringDecoder) (calls : list Call)
    (n : Z) :
  let e := run calls (Emulation_new utf8) in
  getLines (_screen0 e) = getLines (_screen1 e) ∧
  getColumns (_screen0 e) = getColumns (_screen1 e) ∧
  1 ≤ getLines (_screen0 e) ∧ 1 ≤ getColumns (_screen0 e) ∧
  imageSize (setScreen n e) = imageSize e.
Proof.
  intros e.
  assert (H : sizes_agree e).
  { apply (run_invariant sizes_agree); [apply sizes_agree_step|].
    unfold sizes_agree. simpl. lia. }
  destruct H as (HL & HC & H1 & H2).
  split; [done|]. split; [done|]. split; [done|]. split; [done|].
  unfold imageSize, setScreen. rewrite screen_cell_land.
  generalize dependent e. intros e HL HC _ _.
  destruct (Z.even n), e as [ws [] s0 s1 d t1 t2 k l]; simpl in *; congruence.
Qed.

(** X15.  Whatever calls are made on a new emulation, and however time
    passes between them, the two bulk timers are pending together or not at
    all, and a pending timeout is due at most 10 ms after the current
    time. *)
Theorem pending_flush_is_near (utf8 : QStringDecoder) (calls : list Call) :
  let e := run calls (Emulation_new utf8) in
  isActive (_bulkTimer1 e) = isActive (_bulkTimer2 e) ∧
  (∀ due, next_timeout e = Some due → due ≤ clock e + 10) ∧
  (next_timeout e = None ↔ isActive (_bulkTimer1 e) = false).
Proof.
  intros e.
  assert (H : timers_paired e).
  { apply (run_invariant timers_paired); [apply timers_paired_step|].
    by apply timers_paired_idle. }
  destruct H as [Hact Hd]. unfold BULK_TIMEOUT1, BULK_TIMEOUT2 in Hd.
  split; [done|]. unfold next_timeout. rewrite <- Hact.
  destruct (isActive (_bulkTimer1 e)) eqn:A1.
  - destruct (Hd eq_refl) as (D1 & D2 & D3).
    split; [intros due [= <-]; lia|]. split; done.
  - split; [done|]. split; done.
Qed.

(** X16.  A burst of [bufferedUpdate] calls, at any times, on an emulation
    with no update pending leaves the short timer due 10 ms after the last
    call and the long timer due 40 ms after the first one; the timeout that
    comes first then flushes the whole burst with a single
    [outputChanged], and nothing stays pending. *)
Theorem burst_is_flushed_once (first : Z) (later : list Z) (e : Emulation) :
  isActive (_bulkTimer1 e) = false → isActive (_bulkTimer2 e) = false →
  let e' := updates_at (first :: later) e in
  next_timeout e' = Some (Z.min (default first (last later) + 10) (first + 40)) ∧
  emitted e' = emitted e ∧
  ∃ e'', elapse e' = Some e'' ∧
         emitted e'' = emitted e ++ [outputChanged] ∧
         elapse e'' = None.
Proof.
  intros A1 A2 e'.
  assert (H : ∀ times e0 now0,
             isActive (_bulkTimer1 e0) = true →
             isActive (_bulkTimer2 e0) = true →
             deadline (_bulkTimer1 e0) = now0 + 10 →
             let e1 := updates_at times e0 in
             isActive (_bulkTimer1 e1) = true ∧
             isActive (_bulkTimer2 e1) = true ∧
             deadline (_bulkTimer1 e1) = default now0 (last times) + 10 ∧
             deadline (_bulkTimer2 e1) = deadline (_bulkTimer2 e0) ∧
             emitted e1 = emitted e0).
  { induction times as [|now times IH]; intros e0 now0 B1 B2 D1;
      cbn [updates_at fold_left]; [done|].
    destruct (bufferedUpdate_timer1 (set_clock now e0)) as (C1 & _ & C3).
    pose proof (bufferedUpdate_timer2 (set_clock now e0)) as C2.
    pose proof (bufferedUpdate_emitted (set_clock now e0)) as C4.
    cbn [set_clock _bulkTimer2 clock emitted] in C2, C3, C4. rewrite B2 in C2.
    set (e1 := bufferedUpdate (set_clock now e0)) in *.
    destruct (IH e1 now) as (I1 & I2 & I3 & I4 & I5);
      [done|by rewrite C2|done|].
    unfold updates_at in I1, I2, I3, I4, I5.
    split; [done|]. split; [done|]. split; [|split].
    - rewrite I3. rewrite last_cons. by destruct (last times).
    - by rewrite I4, C2.
    - by rewrite I5. }
  unfold e'. cbn [updates_at fold_left].
  destruct (bufferedUpdate_timer1 (set_clock first e)) as (C1 & _ & C3).
  pose proof (bufferedUpdate_timer2 (set_clock first e)) as C2.
  pose proof (bufferedUpdate_emitted (set_clock first e)) as C4.
  cbn [set_clock _bulkTimer2 clock emitted] in C2, C3, C4. rewrite A2 in C2.
  set (e1 := bufferedUpdate (set_clock first e)) in *.
  destruct (H later e1 first) as (I1 & I2 & I3 & I4 & I5); [done|by rewrite C2|done|].
  unfold updates_at in I1, I2, I3, I4, I5.
  set (e2 := fold_left _ later e1) in *.
  assert (Hnext : next_timeout e2
                  = Some (Z.min (default first (last later) + 10) (first + 40))).
  { unfold next_timeout. rewrite I1, I2, I3, I4, C2. reflexivity. }
  split; [done|]. split; [by rewrite I5|].
  unfold elapse. rewrite Hnext. eexists. split; [reflexivity|].
  set (e3 := set_clock _ e2).
  destruct (showBulk_frame e3) as (_ & _ & _ & S1 & S2 & S3).
  split.
  - rewrite S3. unfold e3. simpl. by rewrite I5, C4.
  - unfold next_timeout. by rewrite S1, S2.
Qed.

Lemma burst_is_flushed_once_witness :
  next_timeout (updates_at [0; 3; 7] (Emulation_new latin1)) = Some 17 ∧
  next_timeout (updates_at [0; 9; 18; 27; 36] (Emulation_new latin1)) = Some 40.
Proof.
  split.
  - apply (burst_is_flushed_once 0 [3; 7] (Emulation_new latin1)); reflexivity.
  - apply (burst_is_flushed_once 0 [9; 18; 27; 36] (Emulation_new latin1));
      reflexivity.
Defined.

End EmulationMore.
